(** * PieZense: a shallow embedding of [src/piezense/piezense.py]

    The class [PieZense] keeps a registry of pneumatic systems, a table of
    the latest pressure readings, and a reconnect loop over a Bluetooth
    transport (the [bleak] package).  Most of its public methods are stubs
    whose body is [pass].

    Modelling choices:
    - Python integers are [Z]; Python floats (scale factor, setpoints,
      waiting time) are abstracted by rationals [Q], the code performs no
      arithmetic on them;
    - the interpreter is a 64-bit CPython: a list repetition [[0] * n]
      raises [OverflowError] for a count outside the index size and
      [MemoryError] for a count beyond the longest list;
    - the lists held in [_pressures] are Python objects that the getter hands
      out by reference, so they live in an explicit object store (a [gmap]
      from locations to list objects);
    - methods are computations in a state-and-exception monad over a
      [World]; the reconnect loop [while True] takes fuel;
    - the transport is an oracle the loop consults at every [await]. *)

From Stdlib Require Import ZArith QArith Lia.
From Stdlib.Strings Require Import Byte.
From stdpp Require Import gmap strings list.

Open Scope Z_scope.

(** ** Python values and the object store *)

Definition loc := nat.

(** What a list cell can hold: an integer or a reference to a list object. *)
Inductive pyval :=
| VInt (z : Z)
| VRef (l : loc).

Definition Device := string.

(** A [bleak.BleakClient]: the device it was built for and what its
    [is_connected] property reads. *)
Record Client := mkClient {
  device : Device;
  is_connected : bool
}.

(** [PieZense._System] *)
Record _System := mkSystem {
  system_name : string;
  channel_count : Z;
  client : option Client
}.

(** The values that the boolean expressions of the source range over. *)
Inductive pyobj :=
| PNone
| PBool (b : bool)
| PClient (c : Client).

(** Python truthiness: [None] is false, a client object defines neither
    [__bool__] nor [__len__] and is true. *)
Definition truthy (v : pyobj) : bool :=
  match v with
  | PNone => false
  | PBool b => b
  | PClient _ => true
  end.

(** [all(iterable)]: stops at the first false element. *)
Fixpoint py_all (l : list pyobj) : bool :=
  match l with
  | [] => true
  | x :: rest => if truthy x then py_all rest else false
  end.

(** The fields of a [PieZense] object; [_pressures] is a reference. *)
Record PieZense := mkPieZense {
  _scale_factor : Q;
  _systems : list _System;
  _reconnect_task : pyobj;
  _pressures : loc
}.

(** ** Arguments of the public methods *)

Definition config_data := gmap string Q.
Definition config_data_batch := list (Z * Z * config_data).
Definition setpoint_batch := list (Z * Z * Q).
Definition forwarding_function := Q -> Q.
Definition forwarding_batch := list (Z * Z * Z * Z * forwarding_function).

(** The [mode] dictionary of [setMode]: every key may be absent. *)
Record Mode := mkMode {
  reset_config : option config_data_batch;
  setpoints : option setpoint_batch;
  wait_time : option Q;
  forwarding : option forwarding_batch;
  final_config : option config_data_batch
}.

(** ** Effects *)

(** Calls a method body makes on [self]. *)
Inductive method_call :=
| C_addSystem (system_name : string) (channel_count : Z)
| C_connect
| CclearAllForwarding
| CsendConfig (system_num channel_num : Z) (data : config_data)
| CaddForwarding (ss sc ts tc : Z) (f : forwarding_function).

Inductive event :=
| EvCall (c : method_call)
| EvPrint (s : string)
| EvScan (name : string)
| EvConnect (d : Device)
| EvSleep (seconds : Q).

(** Exceptions.  [CycleRejected] and [NotFound] are the specification's
    names (§7); no statement of the source raises them. *)
Inductive error :=
| IndexError
| BadReference
| BleakError
| CycleRejected
| OverflowError
| MemoryError
| NotFound.

Inductive outcome (A : Type) :=
| Returned (a : A)
| Raised (e : error)
| OutOfFuel.
Arguments Returned {A} a.
Arguments Raised {A} e.
Arguments OutOfFuel {A}.

Record World := mkWorld {
  heap : gmap loc (list pyval);
  self : PieZense;
  log : list event;
  now : nat
}.

Definition M (A : Type) := World -> outcome A * World.

Definition ret {A} (a : A) : M A := fun w => (Returned a, w).

Definition bind {A B} (m : M A) (k : A -> M B) : M B :=
  fun w =>
    match m w with
    | (Returned a, w') => k a w'
    | (Raised e, w') => (Raised e, w')
    | (OutOfFuel, w') => (OutOfFuel, w')
    end.

#[global] Instance M_ret : MRet M := @ret.
#[global] Instance M_bind : MBind M := fun A B k m => bind m k.

Definition raise {A} (e : error) : M A := fun w => (Raised e, w).
Definition out_of_fuel {A} : M A := fun w => (OutOfFuel, w).

Definition get_self : M PieZense := fun w => (Returned (self w), w).

Definition put_self (s : PieZense) : M unit :=
  fun w => (Returned tt, mkWorld (heap w) s (log w) (now w)).

Definition emit (e : event) : M unit :=
  fun w => (Returned tt, mkWorld (heap w) (self w) (log w ++ [e]) (now w)).

(** One scheduler tick: every [await] of the source passes through here. *)
Definition tick : M nat :=
  fun w => (Returned (now w), mkWorld (heap w) (self w) (log w) (S (now w))).

Definition print (s : string) : M unit := emit (EvPrint s).

(** [self.m(...)]: the call is recorded, then the body runs. *)
Definition call {A} (c : method_call) (body : M A) : M A :=
  emit (EvCall c) ;; body.

(** A new list object. *)
Definition alloc (l : list pyval) : M loc :=
  fun w =>
    let p := fresh (dom (heap w)) in
    (Returned p, mkWorld (<[p := l]> (heap w)) (self w) (log w) (now w)).

(** [lst.append(v)] on the list object at [p]. *)
Definition list_append (p : loc) (v : pyval) : M unit :=
  fun w =>
    match heap w !! p with
    | Some l => (Returned tt, mkWorld (<[p := l ++ [v]]> (heap w)) (self w) (log w) (now w))
    | None => (Raised BadReference, w)
    end.

(** [lst[i] = v] on the list object at [p]; Python raises [IndexError]
    out of range. *)
Definition list_setitem (p : loc) (i : nat) (v : pyval) : M unit :=
  fun w =>
    match heap w !! p with
    | Some l =>
        if decide (i < length l)%nat
        then (Returned tt, mkWorld (<[p := <[i := v]> l]> (heap w)) (self w) (log w) (now w))
        else (Raised IndexError, w)
    | None => (Raised BadReference, w)
    end.

(** [lst[i]] on the list object at [p]. *)
Definition list_getitem (p : loc) (i : nat) : M pyval :=
  fun w =>
    match heap w !! p with
    | Some l =>
        match l !! i with
        | Some v => (Returned v, w)
        | None => (Raised IndexError, w)
        end
    | None => (Raised BadReference, w)
    end.

(** [for x in l: body(x)] *)
Fixpoint for_each {A} (body : A -> M unit) (l : list A) : M unit :=
  match l with
  | [] => ret tt
  | x :: rest => body x ;; for_each body rest
  end.

(** ** Reading a table of readings out of the store *)

Definition read_int (v : pyval) : option Z :=
  match v with
  | VInt z => Some z
  | VRef _ => None
  end.

Definition read_row (h : gmap loc (list pyval)) (v : pyval) : option (list Z) :=
  match v with
  | VRef l => h !! l ≫= (fun cells => mapM read_int cells)
  | VInt _ => None
  end.

(** The list of lists of integers that the reference [p] denotes in [h]. *)
Definition read_table (h : gmap loc (list pyval)) (p : loc) : option (list (list Z)) :=
  h !! p ≫= (fun rows => mapM (read_row h) rows).

(** ** The class *)

(** [PieZense.__init__] run in a store [h]: the object and the store that
    holds its empty [_pressures] list. *)
Definition __init__ (scale_factor : Q) (h : gmap loc (list pyval)) : World :=
  let p := fresh (dom h) in
  mkWorld (<[p := []]> h) (mkPieZense scale_factor [] PNone p) [] 0.

(** The index size of a 64-bit CPython, the range of [Py_ssize_t]. *)
Definition ssize_min : Z := - 2 ^ 63.
Definition ssize_max : Z := 2 ^ 63 - 1.

(** The longest list CPython allocates: [PY_SSIZE_T_MAX] divided by the
    size of a cell, 8 bytes. *)
Definition max_list_len : Z := ssize_max / 8.

(** [[0] * n].  A count that does not fit the index size raises
    [OverflowError]; a count that fits and is not positive gives the empty
    list; a count beyond the longest list raises [MemoryError].  Below that
    bound the list is taken to be allocated: like every other allocation of
    the program, running out of the machine's memory is not modelled. *)
Definition list_repeat_zero (n : Z) : M (list pyval) :=
  if decide (n < ssize_min ∨ ssize_max < n) then raise OverflowError
  else if decide (max_list_len < n) then raise MemoryError
  else ret (replicate (Z.to_nat n) (VInt 0)).

Definition _addSystem (system_name : string) (channel_count : Z) : M Z :=
  s ← get_self;
  put_self (mkPieZense (_scale_factor s)
              (_systems s ++ [mkSystem system_name channel_count None])
              (_reconnect_task s) (_pressures s)) ;;
  zeros ← list_repeat_zero channel_count;
  row ← alloc zeros;
  list_append (_pressures s) (VRef row) ;;
  s' ← get_self;
  ret (Z.of_nat (length (_systems s')) - 1).

Definition addSystem (system_name : string) (channel_count : Z) : M Z :=
  call (C_addSystem system_name channel_count) (_addSystem system_name channel_count).

(** The generator element [system.client and system.client.is_connected]. *)
Definition client_and_connected (system : _System) : pyobj :=
  match client system with
  | None => PNone
  | Some c => if truthy (PClient c) then PBool (is_connected c) else PClient c
  end.

Definition isEverythingConnected : M bool :=
  s ← get_self;
  ret (py_all (map client_and_connected (_systems s))).

Definition sendSetpoint (system_num channel_num : Z) (setpoint : Q) : M unit := ret tt.

Definition sendSetpointBatch (batch : setpoint_batch) : M unit := ret tt.

Definition getPressureReadings : M loc :=
  s ← get_self;
  ret (_pressures s).

Definition setCallback (callback_function : Z -> list Z -> unit) : M unit := ret tt.

Definition addForwarding (source_system_num source_channel_num
                          target_system_num target_channel_num : Z)
                         (f : forwarding_function) : M unit := ret tt.

Definition addForwardingBatch (batch : forwarding_batch) : M unit := ret tt.

Definition stopForwarding (source_system_num source_channel_num
                           target_system_num target_channel_num : Z) : M unit := ret tt.

Definition clearAllForwarding : M unit := ret tt.

Definition sendConfig (system_num channel_num : Z) (data : config_data) : M unit := ret tt.

Definition sendConfigBatch (batch : config_data_batch) : M unit := ret tt.

Definition setMode (mode : Mode) : M unit := ret tt.

(** ** The reconnect loop *)

(** What an awaited transport call gives back: a value, or an exception. *)
Inductive reply (A : Type) :=
| Reply (a : A)
| Fails.
Arguments Reply {A} a.
Arguments Fails {A}.

(** The [bleak] package as the loop sees it, asked at scheduler tick [t]:
    the scanner, the connect attempt of a client (the value is what
    [is_connected] reads afterwards), and how a client's services print. *)
Record Transport := mkTransport {
  find_device_by_name : nat -> string -> reply (option Device);
  bleak_connect : nat -> Device -> reply bool;
  services_repr : Device -> string
}.

(** [await asyncio.sleep(seconds)] *)
Definition sleep (seconds : Q) : M unit :=
  emit (EvSleep seconds) ;; _ ← tick; ret tt.

(** [await bleak.BleakScanner.find_device_by_name(name)] *)
Definition scan (bleak : Transport) (name : string) : M (option Device) :=
  emit (EvScan name) ;;
  t ← tick;
  match find_device_by_name bleak t name with
  | Reply d => ret d
  | Fails => raise BleakError
  end.

Definition get_system (i : nat) : M _System :=
  s ← get_self;
  match _systems s !! i with
  | Some system => ret system
  | None => raise IndexError
  end.

(** [system.client = c] for the system at index [i] *)
Definition set_client (i : nat) (c : option Client) : M unit :=
  s ← get_self;
  put_self (mkPieZense (_scale_factor s)
              (alter (fun system => mkSystem (system_name system) (channel_count system) c) i
                     (_systems s))
              (_reconnect_task s) (_pressures s)).

(** [await system.client.connect()] *)
Definition client_connect (bleak : Transport) (i : nat) : M unit :=
  system ← get_system i;
  match client system with
  | None => raise BadReference
  | Some c =>
      emit (EvConnect (device c)) ;;
      t ← tick;
      match bleak_connect bleak t (device c) with
      | Reply up => set_client i (Some (mkClient (device c) up))
      | Fails => raise BleakError
      end
  end.

(** [not system.client or not system.client.is_connected] *)
Definition needs_connection (system : _System) : bool :=
  match client system with
  | None => true
  | Some c => negb (truthy (PClient c)) || negb (is_connected c)
  end.

(** The body of [for i, system in enumerate(self._systems)]. *)
Definition _connect_body (bleak : Transport) (i : nat) : M unit :=
  system ← get_system i;
  (if needs_connection system then
     print ("Need device: " +:+ system_name system) ;;
     found ← scan bleak (system_name system);
     print ("Scanned for device: " +:+ system_name system) ;;
     match found with
     | Some d =>
         print ("Found device: " +:+ d) ;;
         set_client i (Some (mkClient d false)) ;;
         client_connect bleak i ;;
         system' ← get_system i;
         if match client system' with Some c => is_connected c | None => false end
         then
           print ("Connected to device: " +:+ system_name system) ;;
           print ("Services: " +:+ services_repr bleak d)
         else
           print ("Failed to connect to device: " +:+ system_name system) ;;
           set_client i None
     | None => ret tt
     end
   else ret tt) ;;
  sleep 10.

(** [_connect]: [while(True)] around the [for] loop; one unit of fuel per
    turn of the [while]. *)
Fixpoint _connect (bleak : Transport) (fuel : nat) : M pyobj :=
  match fuel with
  | O => out_of_fuel
  | S fuel' =>
      s ← get_self;
      for_each (_connect_body bleak) (seq 0 (length (_systems s))) ;;
      _connect bleak fuel'
  end.

(** [self._reconnect_task = asyncio.run(self._connect())] *)
Definition connect (bleak : Transport) (fuel : nat) : M unit :=
  task ← call C_connect (_connect bleak fuel);
  s ← get_self;
  put_self (mkPieZense (_scale_factor s) (_systems s) task (_pressures s)).

(** ** Running the public operations *)

Inductive op :=
| OaddSystem (system_name : string) (channel_count : Z)
| Oconnect (bleak : Transport) (fuel : nat)
| OisEverythingConnected
| OsendSetpoint (system_num channel_num : Z) (setpoint : Q)
| OsendSetpointBatch (batch : setpoint_batch)
| OgetPressureReadings
| OsetCallback (callback_function : Z -> list Z -> unit)
| OaddForwarding (ss sc ts tc : Z) (f : forwarding_function)
| OaddForwardingBatch (batch : forwarding_batch)
| OstopForwarding (ss sc ts tc : Z)
| OclearAllForwarding
| OsendConfig (system_num channel_num : Z) (data : config_data)
| OsendConfigBatch (batch : config_data_batch)
| OsetMode (mode : Mode).

(** The world a computation leaves behind, whatever its outcome. *)
Definition exec {A} (m : M A) (w : World) : World := snd (m w).

Definition run_op (o : op) : World -> World :=
  match o with
  | OaddSystem n c => exec (addSystem n c)
  | Oconnect bleak fuel => exec (connect bleak fuel)
  | OisEverythingConnected => exec isEverythingConnected
  | OsendSetpoint sn cn sp => exec (sendSetpoint sn cn sp)
  | OsendSetpointBatch b => exec (sendSetpointBatch b)
  | OgetPressureReadings => exec getPressureReadings
  | OsetCallback cb => exec (setCallback cb)
  | OaddForwarding ss sc ts tc f => exec (addForwarding ss sc ts tc f)
  | OaddForwardingBatch b => exec (addForwardingBatch b)
  | OstopForwarding ss sc ts tc => exec (stopForwarding ss sc ts tc)
  | OclearAllForwarding => exec clearAllForwarding
  | OsendConfig sn cn d => exec (sendConfig sn cn d)
  | OsendConfigBatch b => exec (sendConfigBatch b)
  | OsetMode mode => exec (setMode mode)
  end.

Definition run_ops (ops : list op) (w : World) : World :=
  foldl (fun w' o => run_op o w') w ops.


(** What a caller who holds the reference [r] does with it:
    [r[i][j] = v]. *)
Definition caller_setitem (r : loc) (i j : nat) (v : Z) : M unit :=
  row ← list_getitem r i;
  match row with
  | VRef l => list_setitem l j (VInt v)
  | VInt _ => raise BadReference
  end.

(** The table of readings of a registry: one row per system, all zeros,
    [[0]*channel_count] long. *)
Definition zero_rows (systems : list _System) : list (list Z) :=
  map (fun system => replicate (Z.to_nat (channel_count system)) 0) systems.

(** A count for which [[0] * n] returns a list. *)
Definition allocatable (n : Z) : Prop := ssize_min <= n <= max_list_len.



(** ** Forwarding as the specification words it *)

(** A device index and a channel index. *)
Definition endpoint : Type := Z * Z.

(** An endpoint names a registered system and one of its channels. *)
Definition endpoint_registered (systems : list _System) (e : endpoint) : bool :=
  match systems !! Z.to_nat e.1 with
  | Some system => (0 <=? e.1) && (0 <=? e.2) && (e.2 <? channel_count system)
  | None => false
  end.

(** Whether [target] is reached from [source] along the rules of a table
    (§3: one rule per source endpoint, its target and its transform).  A
    source has at most one rule, so the search of §9 is a walk, [fuel] steps
    long. *)
Fixpoint reaches (fuel : nat) (table : gmap endpoint (endpoint * forwarding_function))
    (source target : endpoint) : bool :=
  match fuel with
  | O => false
  | S fuel' =>
      match table !! source with
      | Some (next, _) =>
          if decide (next = target) then true else reaches fuel' table next target
      | None => false
      end
  end.

(** Follows §4.4 of the specification: [addRule(src, dst, transform)]
    validates both endpoints against the registry, fails with
    [CycleRejected] when the new edge would close a cycle (the target
    already leads back to the source, or is the source) and then leaves the
    table as it was, and otherwise installs the rule, in place of any rule
    of the same source. *)
Definition addRule_spec (systems : list _System) (src dst : endpoint)
    (transform : forwarding_function)
    (table : gmap endpoint (endpoint * forwarding_function))
    : outcome unit * gmap endpoint (endpoint * forwarding_function) :=
  if negb (endpoint_registered systems src && endpoint_registered systems dst)
  then (Raised NotFound, table)
  else if bool_decide (src = dst) || reaches (S (size table)) table dst src
  then (Raised CycleRejected, table)
  else (Returned tt, <[src := (dst, transform)]> table).

(** ** The mode change as the specification words it *)

(** Run one entry; a failure is collected instead of propagated. *)
Definition attempt (m : M unit) : M (list error) :=
  fun w =>
    match m w with
    | (Returned _, w') => (Returned [], w')
    | (Raised e, w') => (Returned [e], w')
    | (OutOfFuel, w') => (OutOfFuel, w')
    end.

Fixpoint collect {A} (step : A -> M unit) (l : list A) : M (list error) :=
  match l with
  | [] => ret []
  | x :: rest =>
      e ← attempt (step x);
      es ← collect step rest;
      ret (e ++ es)
  end.

(** Follows §4.5 of the specification and the docstring of [setMode]:
    (1) clear all forwarding, (2) send every [reset_config] entry, (3) wait
    [wait_time], (4) install every [forwarding] entry, (5) send every
    [final_config] entry; failures are collected and the next step runs. *)
Definition setMode_spec (mode : Mode) : M (list error) :=
  e1 ← attempt (call CclearAllForwarding clearAllForwarding);
  e2 ← collect (fun '(sn, cn, d) => call (CsendConfig sn cn d) (sendConfig sn cn d))
         (default [] (reset_config mode));
  sleep (default 0%Q (wait_time mode)) ;;
  e4 ← collect (fun '(ss, sc, ts, tc, f) =>
                  call (CaddForwarding ss sc ts tc f) (addForwarding ss sc ts tc f))
         (default [] (forwarding mode));
  e5 ← collect (fun '(sn, cn, d) => call (CsendConfig sn cn d) (sendConfig sn cn d))
         (default [] (final_config mode));
  ret (e1 ++ e2 ++ e4 ++ e5).

(** ** Telemetry codec *)

(** The number a payload byte stands for, 0 to 255. *)
Definition byte_val (b : byte) : Z := Z.of_N (Byte.to_N b).

(** Modelled from the spec: one little-endian unsigned 16-bit reading,
    computed as the commented-out handler does,
    [(high_byte << 8) | low_byte]. *)
Definition le16 (low_byte high_byte : byte) : Z :=
  Z.lor (Z.shiftl (byte_val high_byte) 8) (byte_val low_byte).

(** Modelled from the spec: what decoding yields, the readings of a
    complete frame, or the readings present together with the
    [TruncatedFrame] condition, or a read outside the payload. *)
Inductive decode_result :=
| Decoded (readings : list Z)
| TruncatedFrame (readings : list Z) (missing : nat)
| ReadOutOfBounds.

(** Modelled from the spec: the two indexed reads of one channel; [None]
    is a read past the end of the data. *)
Definition read_pair (pressure_data : list byte) (follower_id : nat) : option Z :=
  low_byte ← pressure_data !! (follower_id * 2)%nat;
  high_byte ← pressure_data !! (follower_id * 2 + 1)%nat;
  Some (le16 low_byte high_byte).

(** Modelled from the spec: the telemetry decode of §4.2, which the live
    source does not contain (it survives only as a commented-out
    [notification_handler] that prints the values; its slicing, pairing and
    byte arithmetic are followed here).  The first [channel_count * 2] bytes
    are read as little-endian unsigned 16-bit values in channel order; a
    shorter payload yields the complete pairs present and the
    [TruncatedFrame] condition with the number of channels that are
    missing. *)
Definition decode (channel_count : nat) (payload : list byte) : decode_result :=
  let pressure_data := take (channel_count * 2) payload in
  let num_followers := (length pressure_data / 2)%nat in
  match mapM (read_pair pressure_data) (seq 0 num_followers) with
  | None => ReadOutOfBounds
  | Some readings =>
      if decide (num_followers < channel_count)%nat
      then TruncatedFrame readings (channel_count - num_followers)
      else Decoded readings
  end.

(** The readings scaled by [s], as §6 of the specification describes the
    scale factor. *)
Definition scaled (s : Q) (table : list (list Z)) : list (list Q) :=
  map (map (fun raw => (inject_Z raw * s)%Q)) table.

(** A table of integers and a table of rationals hold the same numbers. *)
Definition same_readings (returned : list (list Z)) (expected : list (list Q)) : Prop :=
  Forall2 (Forall2 (fun z q => (inject_Z z == q)%Q)) returned expected.

(** ** Vocabulary of the statements *)

(** A system is connected when it has a client whose [is_connected] reads
    true: the only notion of connection state the source has. *)
Definition connected (system : _System) : Prop :=
  ∃ c, client system = Some c ∧ is_connected c = true.


(** What a computation leaves untouched when it neither writes the object
    store nor re-binds [_pressures] or [_reconnect_task] nor changes a
    channel count. *)
Definition same_store (w w' : World) : Prop :=
  heap w' = heap w
  ∧ _pressures (self w') = _pressures (self w)
  ∧ _reconnect_task (self w') = _reconnect_task (self w)
  ∧ zero_rows (_systems (self w')) = zero_rows (_systems (self w)).

Definition keeps_store {A} (m : M A) : Prop := ∀ w, same_store w (snd (m w)).

(** A transport whose awaited calls never raise. *)
Definition always_replies (bleak : Transport) : Prop :=
  (∀ t name, find_device_by_name bleak t name ≠ Fails)
  ∧ (∀ t d, bleak_connect bleak t d ≠ Fails).

(** The events of the five steps of a mode change, in order. *)
Definition config_events (batch : config_data_batch) : list event :=
  map (fun '(sn, cn, d) => EvCall (CsendConfig sn cn d)) batch.

Definition forwarding_events (batch : forwarding_batch) : list event :=
  map (fun '(ss, sc, ts, tc, f) => EvCall (CaddForwarding ss sc ts tc f)) batch.

Definition five_steps (mode : Mode) : list event :=
  [EvCall CclearAllForwarding]
  ++ config_events (default [] (reset_config mode))
  ++ [EvSleep (default 0%Q (wait_time mode))]
  ++ forwarding_events (default [] (forwarding mode))
  ++ config_events (default [] (final_config mode)).

(** ** Concrete worlds *)

(** [p = PieZense(100.0); p.addSystem("Pod-A", 2)] *)
Definition pod_a : World := exec (addSystem "Pod-A" 2) (__init__ 100 ∅).

(** ... then [p.addSystem("Pod-B", 1)] *)
Definition two_pods : World := exec (addSystem "Pod-B" 1) pod_a.

(** ... or then [p.getPressureReadings()[0][0] = 997] by the caller *)
Definition pod_a_written : World := exec (caller_setitem (_pressures (self pod_a)) 0 0 997) pod_a.



(** A transport that finds only "Pod-A" and always connects. *)
Definition only_pod_a : Transport :=
  mkTransport
    (fun _ name => Reply (if decide (name = "Pod-A"%string) then Some "AA:BB"%string else None))
    (fun _ _ => Reply true)
    (fun _ => "services"%string).

(** A mode with one reset entry, a wait and one final entry. *)
Definition demo_mode : Mode :=
  mkMode (Some [(0, 0, {["set_act_mode"%string := 1%Q]})]) None (Some 1%Q) None
         (Some [(0, 0, {["set_act_mode"%string := 0%Q]})]).

(** ** Vocabulary of the further statements *)

(** The identity of the registry: name and channel count at every index. *)
Definition identities (w : World) : list (string * Z) :=
  map (fun system => (system_name system, channel_count system)) (_systems (self w)).

(** The operations whose body is [pass], and the two queries. *)
Definition inert (o : op) : bool :=
  match o with
  | OaddSystem _ _ | Oconnect _ _ => false
  | _ => true
  end.

(** Whether a call came back with a value, rather than an exception or a
    run that is still going. *)
Definition returned {A} (r : outcome A) : bool :=
  match r with
  | Returned _ => true
  | _ => false
  end.

(** Whether the operation returns when called in [w]. *)
Definition op_returns (o : op) (w : World) : bool :=
  match o with
  | OaddSystem n c => returned (fst (addSystem n c w))
  | Oconnect bleak fuel => returned (fst (connect bleak fuel w))
  | OisEverythingConnected => returned (fst (isEverythingConnected w))
  | OsendSetpoint sn cn sp => returned (fst (sendSetpoint sn cn sp w))
  | OsendSetpointBatch b => returned (fst (sendSetpointBatch b w))
  | OgetPressureReadings => returned (fst (getPressureReadings w))
  | OsetCallback cb => returned (fst (setCallback cb w))
  | OaddForwarding ss sc ts tc f => returned (fst (addForwarding ss sc ts tc f w))
  | OaddForwardingBatch b => returned (fst (addForwardingBatch b w))
  | OstopForwarding ss sc ts tc => returned (fst (stopForwarding ss sc ts tc w))
  | OclearAllForwarding => returned (fst (clearAllForwarding w))
  | OsendConfig sn cn d => returned (fst (sendConfig sn cn d w))
  | OsendConfigBatch b => returned (fst (sendConfigBatch b w))
  | OsetMode mode => returned (fst (setMode mode w))
  end.

(** [R] relates every world to the one a computation leaves behind. *)
Definition frames (R : World → World → Prop) {A} (m : M A) : Prop :=
  ∀ w, R w (snd (m w)).

(** The identities and the scale factor are as they were. *)
Definition same_registry (w w' : World) : Prop :=
  identities w' = identities w
  ∧ _scale_factor (self w') = _scale_factor (self w).

(** The table at [_pressures] is a list of references to row objects that
    exist, differ from each other and from the table itself. *)
Definition distinct_rows (w : World) : Prop :=
  ∃ locs,
    heap w !! _pressures (self w) = Some (VRef <$> locs)
    ∧ NoDup (_pressures (self w) :: locs)
    ∧ Forall (fun l => is_Some (heap w !! l)) locs.

(** The entry of a registry after the reconnect loop has dealt with it:
    the same name and channel count, the given client. *)
Definition with_client (system : _System) (c : option Client) : _System :=
  mkSystem (system_name system) (channel_count system) c.

(** The durations of the sleeps among recorded events, in order. *)
Definition sleep_events (l : list event) : list Q :=
  omap (fun e => match e with EvSleep seconds => Some seconds | _ => None end) l.

(** A transport that finds every device and links every client. *)
Definition always_links (bleak : Transport) : Prop :=
  (∀ t name, ∃ d, find_device_by_name bleak t name = Reply (Some d))
  ∧ (∀ t d, bleak_connect bleak t d = Reply true).

(** The registry has a connected system at index [j]. *)
Definition connected_at (w : World) (j : nat) : Prop :=
  ∃ system, _systems (self w) !! j = Some system ∧ connected system.

(** The world after one turn of the loop over "Pod-A" with a transport that
    finds and links it. *)
Definition pod_a_linked : World := exec (connect only_pod_a 1) pod_a.

(** A transport whose scanner raises. *)
Definition scanner_down : Transport :=
  mkTransport (fun _ _ => Fails) (fun _ _ => Reply true) (fun _ => "services"%string).

(** A transport that finds every device and whose connect attempts raise. *)
Definition connect_raises : Transport :=
  mkTransport (fun _ _ => Reply (Some "AA:BB"%string)) (fun _ _ => Fails)
    (fun _ => "services"%string).

(** A transport that finds nothing. *)
Definition nothing_found : Transport :=
  mkTransport (fun _ _ => Reply None) (fun _ _ => Reply true) (fun _ => "services"%string).

(** A transport that finds every device and never gets a link. *)
Definition never_links : Transport :=
  mkTransport (fun _ _ => Reply (Some "AA:BB"%string)) (fun _ _ => Reply false)
    (fun _ => "services"%string).

(** * Properties *)

(** ** Running a sequence *)

Lemma run_bind {A B} (m : M A) (k : A → M B) (w : World) :
  (m ≫= k) w
  = match m w with
    | (Returned a, w') => k a w'
    | (Raised e, w') => (Raised e, w')
    | (OutOfFuel, w') => (OutOfFuel, w')
    end.
Proof. reflexivity. Qed.

(** ** Telemetry codec *)

Lemma byte_val_range (b : byte) : 0 <= byte_val b < 256.
Proof.
  unfold byte_val. pose proof (Byte.to_N_bounded b). lia.
Qed.

(** The shift-and-or of the decoder is the little-endian value. *)
Lemma le16_value (lo hi : byte) : le16 lo hi = byte_val lo + 256 * byte_val hi.
Proof.
  unfold le16.
  pose proof (byte_val_range lo) as Hlo.
  rewrite <- Z.add_nocarry_lor.
  - rewrite Z.shiftl_mul_pow2 by lia. change (2 ^ 8) with 256. lia.
  - apply Z.bits_inj'. intros n Hn.
    rewrite Z.land_spec, Z.bits_0.
    destruct (Z.lt_ge_cases n 8) as [Hlt | Hge].
    + rewrite Z.shiftl_spec_low by lia. reflexivity.
    + rewrite <- (Z.mod_small (byte_val lo) (2 ^ 8)) by (change (2 ^ 8) with 256; lia).
      rewrite Z.mod_pow2_bits_high by lia.
      apply andb_false_r.
Qed.

Lemma le16_range (lo hi : byte) : 0 <= le16 lo hi < 65536.
Proof.
  rewrite le16_value.
  pose proof (byte_val_range lo). pose proof (byte_val_range hi). lia.
Qed.

(** Every complete pair of [data] is read, in bounds, by the indexed loop. *)
Lemma read_pairs_complete (data : list byte) (n : nat) :
  (n * 2 <= length data)%nat →
  ∃ readings,
    mapM (read_pair data) (seq 0 n) = Some readings
    ∧ length readings = n
    ∧ ∀ i, (i < n)%nat →
        ∃ lo hi, data !! (i * 2)%nat = Some lo
                 ∧ data !! (i * 2 + 1)%nat = Some hi
                 ∧ readings !! i = Some (byte_val lo + 256 * byte_val hi).
Proof.
  intros Hlen.
  assert (Hall : Forall (is_Some ∘ read_pair data) (seq 0 n)).
  { apply Forall_forall. intros i Hi.
    apply elem_of_seq in Hi.
    destruct (lookup_lt_is_Some_2 data (i * 2)%nat) as [lo Hlo]; [lia |].
    destruct (lookup_lt_is_Some_2 data (i * 2 + 1)%nat) as [hi Hhi]; [lia |].
    unfold compose, read_pair. rewrite Hlo, Hhi. simpl. eauto. }
  apply mapM_is_Some_2 in Hall. destruct Hall as [readings Hr].
  exists readings. split; [exact Hr |].
  apply mapM_Some_1 in Hr.
  pose proof (Forall2_length _ _ _ Hr) as Hl. rewrite length_seq in Hl.
  split; [lia |].
  intros i Hi.
  destruct (Forall2_lookup_l _ _ _ i i Hr) as (y & Hy & Hpair).
  { apply lookup_seq. lia. }
  unfold read_pair in Hpair.
  destruct (data !! (i * 2)%nat) as [lo |] eqn:Hlo; [| discriminate].
  destruct (data !! (i * 2 + 1)%nat) as [hi |] eqn:Hhi; [| discriminate].
  simpl in Hpair. injection Hpair as <-.
  exists lo, hi. rewrite <- le16_value. auto.
Qed.

(** C3.  For a channel count [c] and a payload of at least [2*c] bytes,
    decode yields exactly [c] readings; reading [i] is the little-endian
    unsigned 16-bit value of payload bytes [2*i] (low) and [2*i+1] (high),
    in channel order; bytes after the first [2*c] do not matter; and with 2
    channels the payload E5 03 F4 01 decodes to [997, 500]. *)
Theorem decode_well_formed (c : nat) (payload : list byte) :
  (2 * c <= length payload)%nat →
  ∃ readings,
    decode c payload = Decoded readings
    ∧ length readings = c
    ∧ (∀ i, (i < c)%nat →
         ∃ lo hi, payload !! (2 * i)%nat = Some lo
                  ∧ payload !! (2 * i + 1)%nat = Some hi
                  ∧ readings !! i = Some (byte_val lo + 256 * byte_val hi)
                  ∧ 0 <= byte_val lo + 256 * byte_val hi < 65536)
    ∧ (∀ trailing, decode c (take (2 * c) payload ++ trailing) = Decoded readings)
    ∧ decode 2 [xe5; x03; xf4; x01] = Decoded [997; 500].
Proof.
  intros Hlen.
  assert (Hdata : length (take (c * 2) payload) = (c * 2)%nat)
    by (rewrite length_take; lia).
  destruct (read_pairs_complete (take (c * 2) payload) c) as (readings & Hr & Hn & Hval);
    [lia |].
  assert (Hdec : decode c payload = Decoded readings).
  { unfold decode. rewrite Hdata, Nat.div_mul by lia. rewrite Hr.
    destruct (decide (c < c)%nat); [lia | reflexivity]. }
  exists readings. repeat split; try assumption.
  - intros i Hi. destruct (Hval i Hi) as (lo & hi & Hlo & Hhi & Hv).
    rewrite lookup_take_lt in Hlo by lia. rewrite lookup_take_lt in Hhi by lia.
    exists lo, hi.
    replace (2 * i)%nat with (i * 2)%nat by lia.
    pose proof (le16_range lo hi) as Hrange. rewrite le16_value in Hrange.
    auto.
  - intros trailing. rewrite <- Hdec. unfold decode.
    replace (2 * c)%nat with (c * 2)%nat by lia.
    rewrite take_app_le by lia. rewrite take_take, Nat.min_id. reflexivity.
Qed.

Lemma decode_well_formed_witness :
  ∃ readings, decode 1 [xe5; x03; xff] = Decoded readings ∧ length readings = 1%nat.
Proof.
  destruct (decode_well_formed 1 [xe5; x03; xff]) as (readings & Hd & Hl & _).
  - simpl. lia.
  - exists readings. split; assumption.
Defined.

(** C4.  For a channel count [c] and a payload shorter than [2*c] bytes,
    decode performs no read past the end of the payload, yields exactly the
    complete pairs present (reading [i] from bytes [2*i] and [2*i+1], both
    inside the payload), adds no reading for a missing channel, and signals
    [TruncatedFrame] with the number of channels that are missing. *)
Theorem decode_truncated (c : nat) (payload : list byte) :
  (length payload < 2 * c)%nat →
  ∃ readings,
    decode c payload = TruncatedFrame readings (c - length payload / 2)
    ∧ decode c payload ≠ ReadOutOfBounds
    ∧ length readings = (length payload / 2)%nat
    ∧ (length readings < c)%nat
    ∧ ∀ i, (i < length payload / 2)%nat →
        ∃ lo hi, (2 * i + 1 < length payload)%nat
                 ∧ payload !! (2 * i)%nat = Some lo
                 ∧ payload !! (2 * i + 1)%nat = Some hi
                 ∧ readings !! i = Some (byte_val lo + 256 * byte_val hi).
Proof.
  intros Hlen.
  assert (Hdata : take (c * 2) payload = payload) by (apply take_ge; lia).
  pose proof (Nat.div_mod_eq (length payload) 2) as Hdiv.
  pose proof (Nat.mod_upper_bound (length payload) 2) as Hmod.
  destruct (read_pairs_complete payload (length payload / 2))
    as (readings & Hr & Hn & Hval); [lia |].
  assert (Hdec : decode c payload = TruncatedFrame readings (c - length payload / 2)).
  { unfold decode. rewrite Hdata, Hr.
    destruct (decide (length payload / 2 < c)%nat); [reflexivity | lia]. }
  exists readings. split; [exact Hdec |].
  split; [rewrite Hdec; discriminate |].
  split; [exact Hn |].
  split; [lia |].
  intros i Hi. destruct (Hval i Hi) as (lo & hi & Hlo & Hhi & Hv).
  exists lo, hi.
  replace (2 * i)%nat with (i * 2)%nat by lia.
  split; [lia | auto].
Qed.

Lemma decode_truncated_witness :
  ∃ readings, decode 2 [xe5; x03; xf4] = TruncatedFrame readings 1 ∧ readings = [997].
Proof.
  destruct (decode_truncated 2 [xe5; x03; xf4]) as (readings & Hd & _).
  - simpl. lia.
  - exists readings. split; [exact Hd |].
    vm_compute in Hd. congruence.
Defined.

(** ** Connection query *)

Lemma py_all_connected (systems : list _System) :
  py_all (map client_and_connected systems) = true ↔ Forall connected systems.
Proof.
  induction systems as [| system rest IH]; simpl.
  - split; [constructor | reflexivity].
  - unfold client_and_connected at 1.
    destruct (client system) as [c |] eqn:Hc; simpl.
    + destruct (is_connected c) eqn:Hup.
      * rewrite IH. split.
        -- intros Hrest. constructor; [exists c; auto | exact Hrest].
        -- intros Hall. inversion Hall; assumption.
      * split; [discriminate |].
        intros Hall. inversion Hall as [| ? ? (c' & Hc' & Hup') _]; subst.
        congruence.
    + split; [discriminate |].
      intros Hall. inversion Hall as [| ? ? (c' & Hc' & _) _]; subst.
      congruence.
Qed.

Lemma isEverythingConnected_run (w : World) :
  isEverythingConnected w
  = (Returned (py_all (map client_and_connected (_systems (self w)))), w).
Proof. reflexivity. Qed.

(** C6.  In every state of the registry, [isEverythingConnected()] returns
    a boolean, changes nothing, and the boolean is true exactly when every
    registered system is connected at that moment. *)
Theorem isEverythingConnected_iff (w : World) :
  ∃ b, isEverythingConnected w = (Returned b, w)
       ∧ (b = true ↔ Forall connected (_systems (self w))).
Proof.
  exists (py_all (map client_and_connected (_systems (self w)))).
  split; [apply isEverythingConnected_run | apply py_all_connected].
Qed.

(** C9.  With no system registered, [isEverythingConnected()] returns
    true. *)
Theorem isEverythingConnected_empty (w : World) :
  _systems (self w) = [] → isEverythingConnected w = (Returned true, w).
Proof.
  intros Hnone. rewrite isEverythingConnected_run, Hnone. reflexivity.
Qed.

Lemma isEverythingConnected_empty_witness :
  isEverythingConnected (__init__ 1 ∅) = (Returned true, __init__ 1 ∅).
Proof.
  apply (isEverythingConnected_empty (__init__ 1 ∅)). reflexivity.
Defined.

(** ** Forwarding *)

(** The forwarding engine of the specification rejects the reverse of a
    rule it has just installed and keeps its table. *)
Lemma addRule_spec_rejects_reverse (systems : list _System) (a b : endpoint)
    (f g : forwarding_function)
    (table table1 : gmap endpoint (endpoint * forwarding_function)) :
  a ≠ b →
  addRule_spec systems a b f table = (Returned tt, table1) →
  addRule_spec systems b a g table1 = (Raised CycleRejected, table1).
Proof.
  intros Hne Hfirst. unfold addRule_spec in *.
  destruct (endpoint_registered systems a) eqn:Ha;
    destruct (endpoint_registered systems b) eqn:Hb;
    cbv [negb andb] in *; try discriminate.
  destruct (bool_decide (a = b) || reaches (S (size table)) table b a);
    [discriminate |].
  injection Hfirst as <-.
  assert (Hwalk : reaches (S (size (<[a := (b, f)]> table))) (<[a := (b, f)]> table) a b
                  = true).
  { cbn [reaches]. rewrite lookup_insert_eq.
    destruct (decide (b = b)) as [_ | Hbad]; [reflexivity | contradiction]. }
  rewrite Hwalk, orb_true_r. reflexivity.
Qed.

(** C5, evaluated on the code.  For all endpoints A = (ss, sc) and
    B = (ts, tc), every transform and every state, [addForwarding] of A → B
    returns and leaves the world exactly as it was: no rule is installed
    anywhere.  The call of B → A after it therefore returns normally as
    well, where the forwarding engine of §4.4, having installed A → B for
    distinct endpoints, fails with [CycleRejected] and keeps its table; on
    two registered systems, (0,0) → (1,0) then (1,0) → (0,0). *)
Theorem addForwarding_installs_nothing
    (ss sc ts tc : Z) (f g : forwarding_function) (w : World) :
  addForwarding ss sc ts tc f w = (Returned tt, w)
  ∧ addForwarding ts tc ss sc g (exec (addForwarding ss sc ts tc f) w) = (Returned tt, w)
  ∧ (∀ table table1,
       (ss, sc) ≠ (ts, tc) →
       addRule_spec (_systems (self w)) (ss, sc) (ts, tc) f table = (Returned tt, table1) →
       addRule_spec (_systems (self w)) (ts, tc) (ss, sc) g table1
       = (Raised CycleRejected, table1))
  ∧ addRule_spec (_systems (self two_pods)) (0, 0) (1, 0) f ∅
    = (Returned tt, {[ (0, 0) := ((1, 0), f) ]})
  ∧ addRule_spec (_systems (self two_pods)) (1, 0) (0, 0) g {[ (0, 0) := ((1, 0), f) ]}
    = (Raised CycleRejected, {[ (0, 0) := ((1, 0), f) ]})
  ∧ addForwarding 1 0 0 0 g (exec (addForwarding 0 0 1 0 f) two_pods)
    = (Returned tt, two_pods).
Proof.
  split; [reflexivity |].
  split; [reflexivity |].
  split; [intros table table1; apply addRule_spec_rejects_reverse |].
  assert (Hfirst : addRule_spec (_systems (self two_pods)) (0, 0) (1, 0) f ∅
                   = (Returned tt, {[ (0, 0) := ((1, 0), f) ]})) by reflexivity.
  split; [exact Hfirst |].
  split; [| reflexivity].
  apply (addRule_spec_rejects_reverse _ (0, 0) (1, 0) f g ∅); [discriminate | exact Hfirst].
Qed.

(** ** Mode change *)

Lemma attempt_step (m : M unit) (e : event) (w : World) :
  m w = (Returned tt, mkWorld (heap w) (self w) (log w ++ [e]) (now w)) →
  attempt m w = (Returned [], mkWorld (heap w) (self w) (log w ++ [e]) (now w)).
Proof.
  intros Hm. unfold attempt. rewrite Hm. reflexivity.
Qed.

(** A batch whose every entry records one event and succeeds records the
    events of the batch in batch order and collects no failure. *)
Lemma collect_events {A} (step : A → M unit) (ev : A → event) (l : list A) :
  (∀ x w, step x w = (Returned tt, mkWorld (heap w) (self w) (log w ++ [ev x]) (now w))) →
  ∀ w, collect step l w
       = (Returned [], mkWorld (heap w) (self w) (log w ++ map ev l) (now w)).
Proof.
  intros Hstep. induction l as [| x rest IH]; intros w; simpl.
  - rewrite app_nil_r. destruct w; reflexivity.
  - rewrite run_bind, (attempt_step _ (ev x)) by apply Hstep.
    rewrite run_bind, IH. simpl. rewrite <- app_assoc. reflexivity.
Qed.

Lemma setMode_spec_trace (mode : Mode) (w : World) :
  setMode_spec mode w
  = (Returned [], mkWorld (heap w) (self w) (log w ++ five_steps mode) (S (now w))).
Proof.
  unfold setMode_spec, five_steps, config_events, forwarding_events.
  rewrite run_bind, (attempt_step _ (EvCall CclearAllForwarding)) by reflexivity.
  rewrite run_bind,
    (collect_events _ (fun '(sn, cn, d) => EvCall (CsendConfig sn cn d)))
    by (intros [[sn cn] d] w'; reflexivity).
  rewrite run_bind. simpl.
  rewrite run_bind,
    (collect_events _ (fun '(ss, sc, ts, tc, f) => EvCall (CaddForwarding ss sc ts tc f)))
    by (intros [[[[ss sc] ts] tc] f] w'; reflexivity).
  rewrite run_bind,
    (collect_events _ (fun '(sn, cn, d) => EvCall (CsendConfig sn cn d)))
    by (intros [[sn cn] d] w'; reflexivity).
  simpl. unfold ret. repeat rewrite <- app_assoc. reflexivity.
Qed.

(** C1, evaluated on the code.  For every mode dictionary and every state,
    [setMode(mode)] returns at once and leaves the world as it was: it
    records no call and no wait.  The five steps of its docstring and of
    §4.5 record, in order, the call of [clearAllForwarding], one
    [sendConfig] per [reset_config] entry, the wait, one [addForwarding] per
    [forwarding] entry and one [sendConfig] per [final_config] entry; that
    trace is never empty, so [setMode] performs none of the steps. *)
Theorem setMode_performs_no_step (mode : Mode) (w : World) :
  setMode mode w = (Returned tt, w)
  ∧ log (exec (setMode mode) w) = log w
  ∧ log (exec (setMode_spec mode) w) = log w ++ five_steps mode
  ∧ log (exec (setMode_spec mode) w) ≠ log (exec (setMode mode) w)
  ∧ log (exec (setMode_spec demo_mode) pod_a)
    = log pod_a
      ++ [EvCall CclearAllForwarding;
          EvCall (CsendConfig 0 0 {["set_act_mode"%string := 1%Q]});
          EvSleep 1;
          EvCall (CsendConfig 0 0 {["set_act_mode"%string := 0%Q]})].
Proof.
  assert (Hspec : ∀ m w', log (exec (setMode_spec m) w') = log w' ++ five_steps m).
  { intros m w'. unfold exec. rewrite setMode_spec_trace. reflexivity. }
  split; [reflexivity |].
  split; [reflexivity |].
  split; [apply Hspec |].
  split.
  - rewrite Hspec. unfold exec, setMode, ret. simpl.
    intros Heq. apply (f_equal length) in Heq.
    rewrite length_app in Heq. unfold five_steps in Heq.
    simpl in Heq. lia.
  - rewrite Hspec. reflexivity.
Qed.

(** ** Scale factor *)

(** C7, evaluated on the code.  In every state [getPressureReadings()]
    returns the reference held in [_pressures] and consults no scale factor.
    With scale factor 100 and the stored row [997, 0] the caller reads
    [997, 0], which is not the stored values times 100. *)
Theorem getPressureReadings_unscaled :
  (∀ w, getPressureReadings w = (Returned (_pressures (self w)), w))
  ∧ _scale_factor (self pod_a_written) = 100%Q
  ∧ read_table (heap pod_a_written) (_pressures (self pod_a_written)) = Some [[997; 0]]
  ∧ (∃ r, getPressureReadings pod_a_written = (Returned r, pod_a_written)
          ∧ read_table (heap pod_a_written) r = Some [[997; 0]])
  ∧ ¬ same_readings [[997; 0]] (scaled 100 [[997; 0]]).
Proof.
  split; [reflexivity |].
  split; [reflexivity |].
  split; [vm_compute; reflexivity |].
  split.
  - eexists. split; [reflexivity | vm_compute; reflexivity].
  - intros Hsame. unfold same_readings in Hsame.
    inversion Hsame as [| ? ? ? ? Hrow _]; subst.
    inversion Hrow as [| ? ? ? ? Hcell _]; subst.
    vm_compute in Hcell. discriminate.
Qed.

(** ** What the reconnect loop leaves untouched *)

Lemma same_store_refl (w : World) : same_store w w.
Proof. repeat split. Qed.

Lemma same_store_trans (w1 w2 w3 : World) :
  same_store w1 w2 → same_store w2 w3 → same_store w1 w3.
Proof.
  intros (Hh & Hp & Ht & Hz) (Hh' & Hp' & Ht' & Hz'). repeat split; congruence.
Qed.

Lemma keeps_ret {A} (a : A) : keeps_store (ret a).
Proof. intros w. apply same_store_refl. Qed.

Lemma keeps_raise {A} (e : error) : keeps_store (@raise A e).
Proof. intros w. apply same_store_refl. Qed.

Lemma keeps_out_of_fuel {A} : keeps_store (@out_of_fuel A).
Proof. intros w. apply same_store_refl. Qed.

Lemma keeps_get_self : keeps_store get_self.
Proof. intros w. apply same_store_refl. Qed.

Lemma keeps_emit (e : event) : keeps_store (emit e).
Proof. intros w. repeat split. Qed.

Lemma keeps_tick : keeps_store tick.
Proof. intros w. repeat split. Qed.

Lemma keeps_bind {A B} (m : M A) (k : A → M B) :
  keeps_store m → (∀ a, keeps_store (k a)) → keeps_store (m ≫= k).
Proof.
  intros Hm Hk w. rewrite run_bind.
  pose proof (Hm w) as Hw.
  destruct (m w) as [[a | e |] w']; simpl in Hw; try exact Hw.
  eapply same_store_trans; [exact Hw | apply Hk].
Qed.

Lemma zero_rows_alter_client (c : option Client) (i : nat) (systems : list _System) :
  zero_rows
    (alter (fun system => mkSystem (system_name system) (channel_count system) c) i systems)
  = zero_rows systems.
Proof.
  revert i. induction systems as [| system rest IH]; intros [| i]; simpl;
    try reflexivity.
  f_equal. apply IH.
Qed.

Lemma keeps_set_client (i : nat) (c : option Client) : keeps_store (set_client i c).
Proof.
  intros w. unfold set_client. rewrite run_bind. simpl.
  repeat split. simpl. apply zero_rows_alter_client.
Qed.

Ltac keeps_step :=
  first
    [ apply keeps_set_client
    | apply keeps_ret
    | apply keeps_raise
    | apply keeps_out_of_fuel
    | apply keeps_get_self
    | apply keeps_emit
    | apply keeps_tick
    | apply keeps_bind; [| intros ?]
    | match goal with
      | |- keeps_store (match ?x with _ => _ end) => destruct x
      end ].

Lemma keeps_for_each {A} (body : A → M unit) (l : list A) :
  (∀ x, keeps_store (body x)) → keeps_store (for_each body l).
Proof.
  intros Hbody. induction l as [| x rest IH]; simpl.
  - apply keeps_ret.
  - apply keeps_bind; [apply Hbody | intros _; exact IH].
Qed.

Lemma keeps_sleep (seconds : Q) : keeps_store (sleep seconds).
Proof. unfold sleep. repeat keeps_step. Qed.

Lemma keeps_scan (bleak : Transport) (name : string) : keeps_store (scan bleak name).
Proof. unfold scan. repeat keeps_step. Qed.

Lemma keeps_get_system (i : nat) : keeps_store (get_system i).
Proof. unfold get_system. repeat keeps_step. Qed.

Lemma keeps_client_connect (bleak : Transport) (i : nat) :
  keeps_store (client_connect bleak i).
Proof.
  unfold client_connect.
  apply keeps_bind; [apply keeps_get_system | intros system].
  repeat keeps_step.
Qed.

Lemma keeps_connect_body (bleak : Transport) (i : nat) :
  keeps_store (_connect_body bleak i).
Proof.
  unfold _connect_body, print.
  apply keeps_bind; [apply keeps_get_system | intros system].
  apply keeps_bind; [| intros _; apply keeps_sleep].
  destruct (needs_connection system); [| apply keeps_ret].
  apply keeps_bind; [apply keeps_emit | intros _].
  apply keeps_bind; [apply keeps_scan | intros found].
  apply keeps_bind; [apply keeps_emit | intros _].
  destruct found as [d |]; [| apply keeps_ret].
  apply keeps_bind; [apply keeps_emit | intros _].
  apply keeps_bind; [apply keeps_set_client | intros _].
  apply keeps_bind; [apply keeps_client_connect | intros _].
  apply keeps_bind; [apply keeps_get_system | intros system'].
  repeat keeps_step.
Qed.

Lemma keeps__connect (bleak : Transport) (fuel : nat) : keeps_store (_connect bleak fuel).
Proof.
  induction fuel as [| fuel IH]; simpl.
  - apply keeps_out_of_fuel.
  - apply keeps_bind; [apply keeps_get_self | intros s].
    apply keeps_bind; [| intros _; exact IH].
    apply keeps_for_each. intros i. apply keeps_connect_body.
Qed.

(** ** The reconnect loop never hands control back *)

Lemma _connect_no_return (bleak : Transport) (fuel : nat) (w : World) :
  ∃ w', _connect bleak fuel w = (OutOfFuel, w')
        ∨ ∃ e, _connect bleak fuel w = (Raised e, w').
Proof.
  revert w. induction fuel as [| fuel IH]; intros w; simpl.
  - exists w. left. reflexivity.
  - rewrite run_bind. simpl. rewrite run_bind.
    destruct (for_each (_connect_body bleak) (seq 0 (length (_systems (self w)))) w)
      as [[[] | e |] w1].
    + apply IH.
    + exists w1. right. exists e. reflexivity.
    + exists w1. left. reflexivity.
Qed.

(** With no registered system the loop spins without reaching an [await]:
    any amount of fuel runs out and nothing is recorded. *)
Lemma _connect_empty_spins (bleak : Transport) (fuel : nat) (w : World) :
  _systems (self w) = [] → _connect bleak fuel w = (OutOfFuel, w).
Proof.
  intros Hnone. induction fuel as [| fuel IH]; simpl.
  - reflexivity.
  - rewrite run_bind. simpl. rewrite Hnone. simpl. rewrite run_bind. simpl.
    exact IH.
Qed.

Lemma run_connect (bleak : Transport) (fuel : nat) (w : World) :
  connect bleak fuel w
  = match _connect bleak fuel (exec (emit (EvCall C_connect)) w) with
    | (Returned task, w') =>
        (Returned tt,
         mkWorld (heap w')
           (mkPieZense (_scale_factor (self w')) (_systems (self w')) task
              (_pressures (self w')))
           (log w') (now w'))
    | (Raised e, w') => (Raised e, w')
    | (OutOfFuel, w') => (OutOfFuel, w')
    end.
Proof.
  unfold connect, call. rewrite !run_bind. simpl.
  destruct (_connect bleak fuel _) as [[task | e |] w']; reflexivity.
Qed.

Lemma keeps_connect (bleak : Transport) (fuel : nat) : keeps_store (connect bleak fuel).
Proof.
  intros w. rewrite run_connect.
  pose proof (keeps__connect bleak fuel (exec (emit (EvCall C_connect)) w)) as Hkeep.
  destruct (_connect_no_return bleak fuel (exec (emit (EvCall C_connect)) w))
    as (w' & [Hout | (e & Hraise)]).
  - rewrite Hout in *. exact Hkeep.
  - rewrite Hraise in *. exact Hkeep.
Qed.

(** ** With a transport that answers, the loop goes round for ever *)

Lemma run_get_system (i : nat) (system : _System) (w : World) :
  _systems (self w) !! i = Some system → get_system i w = (Returned system, w).
Proof.
  intros Hi. unfold get_system. rewrite run_bind. simpl. rewrite Hi. reflexivity.
Qed.

Lemma _connect_body_returns (bleak : Transport) (i : nat) (w : World) :
  always_replies bleak →
  (i < length (_systems (self w)))%nat →
  ∃ w', _connect_body bleak i w = (Returned tt, w')
        ∧ length (_systems (self w')) = length (_systems (self w)).
Proof.
  intros [Hscan Hconn] Hi.
  destruct (lookup_lt_is_Some_2 _ _ Hi) as [system Hsys].
  unfold _connect_body.
  rewrite run_bind, (run_get_system i system) by exact Hsys.
  rewrite run_bind.
  destruct (needs_connection system).
  - rewrite run_bind. simpl. rewrite run_bind. unfold scan.
    rewrite run_bind. simpl. rewrite run_bind. simpl.
    specialize (Hscan (now w) (system_name system)).
    destruct (find_device_by_name bleak (now w) (system_name system)) as [found |];
      [| congruence].
    simpl. rewrite run_bind. simpl.
    destruct found as [d |].
    + rewrite run_bind. simpl. rewrite run_bind. simpl.
      rewrite run_bind. unfold client_connect.
      rewrite run_bind.
      erewrite run_get_system
        by (simpl; rewrite list_lookup_alter_eq, Hsys; reflexivity).
      simpl. rewrite run_bind. simpl. rewrite run_bind. simpl.
      specialize (Hconn (S (now w)) d).
      destruct (bleak_connect bleak (S (now w)) d) as [up |]; [| congruence].
      simpl. rewrite run_bind.
      erewrite run_get_system
        by (simpl; rewrite !list_lookup_alter_eq, Hsys; reflexivity).
      simpl. destruct up.
      * rewrite run_bind. simpl. eexists. split; [reflexivity |].
        simpl. rewrite !length_alter. reflexivity.
      * rewrite run_bind. simpl. eexists. split; [reflexivity |].
        simpl. rewrite !length_alter. reflexivity.
    + eexists. split; [reflexivity | reflexivity].
  - simpl. eexists. split; [reflexivity | reflexivity].
Qed.

Lemma for_each_body_returns (bleak : Transport) (l : list nat) (w : World) :
  always_replies bleak →
  Forall (fun i => (i < length (_systems (self w)))%nat) l →
  ∃ w', for_each (_connect_body bleak) l w = (Returned tt, w')
        ∧ length (_systems (self w')) = length (_systems (self w)).
Proof.
  intros Hreplies. revert w. induction l as [| i rest IH]; intros w Hall; simpl.
  - exists w. split; reflexivity.
  - inversion Hall as [| ? ? Hi Hrest]; subst.
    destruct (_connect_body_returns bleak i w Hreplies Hi) as (w1 & Hrun & Hlen).
    rewrite run_bind, Hrun.
    destruct (IH w1) as (w2 & Hrun2 & Hlen2).
    { rewrite Hlen. exact Hrest. }
    exists w2. split; [exact Hrun2 | congruence].
Qed.

Lemma _connect_diverges (bleak : Transport) (fuel : nat) (w : World) :
  always_replies bleak → ∃ w', _connect bleak fuel w = (OutOfFuel, w').
Proof.
  intros Hreplies. revert w. induction fuel as [| fuel IH]; intros w; simpl.
  - exists w. reflexivity.
  - rewrite run_bind. simpl. rewrite run_bind.
    destruct (for_each_body_returns bleak (seq 0 (length (_systems (self w)))) w Hreplies)
      as (w1 & Hrun & _).
    { apply Forall_forall. intros i Hi. apply elem_of_seq in Hi. lia. }
    rewrite Hrun. apply IH.
Qed.

(** C2, evaluated on the code.  For every transport, every registry and
    every amount of fuel, [connect()] does not return to its caller: the
    run either is still inside the loop when the fuel is spent or leaves it
    by an exception of the transport.  When the transport answers every
    call the run is inside the loop for every amount of fuel, and
    [_reconnect_task] stays as it was.  With an empty registry the loop
    spins without a single [await]; with two registered systems and three
    turns of fuel the run is still scanning and sleeping. *)
Theorem connect_never_returns (bleak : Transport) (fuel : nat) (w : World) :
  (∃ w', connect bleak fuel w = (OutOfFuel, w')
         ∨ ∃ e, connect bleak fuel w = (Raised e, w'))
  ∧ (always_replies bleak →
     ∃ w', connect bleak fuel w = (OutOfFuel, w')
           ∧ _reconnect_task (self w') = _reconnect_task (self w))
  ∧ fst (connect bleak fuel (__init__ 1 ∅)) = OutOfFuel
  ∧ fst (connect only_pod_a 3 two_pods) = OutOfFuel.
Proof.
  split; [| split; [| split]].
  - rewrite run_connect.
    destruct (_connect_no_return bleak fuel (exec (emit (EvCall C_connect)) w))
      as (w' & [Hout | (e & Hraise)]).
    + exists w'. left. rewrite Hout. reflexivity.
    + exists w'. right. exists e. rewrite Hraise. reflexivity.
  - intros Hreplies.
    pose proof (keeps_connect bleak fuel w) as (_ & _ & Htask & _).
    rewrite run_connect in *.
    destruct (_connect_diverges bleak fuel (exec (emit (EvCall C_connect)) w) Hreplies)
      as (w' & Hout).
    rewrite Hout in *. exists w'. split; [reflexivity | exact Htask].
  - rewrite run_connect, _connect_empty_spins by reflexivity. reflexivity.
  - vm_compute. reflexivity.
Qed.

(** ** The table of readings in the object store *)

Lemma fresh_unallocated (h : gmap loc (list pyval)) : h !! fresh (dom h) = None.
Proof. apply not_elem_of_dom, is_fresh. Qed.





Lemma run_list_append (p : loc) (v : pyval) (l : list pyval) (w : World) :
  heap w !! p = Some l →
  list_append p v w
  = (Returned tt, mkWorld (<[p := l ++ [v]]> (heap w)) (self w) (log w) (now w)).
Proof. intros Hp. unfold list_append. rewrite Hp. reflexivity. Qed.

Lemma run_list_repeat_zero (n : Z) (w : World) :
  allocatable n →
  list_repeat_zero n w = (Returned (replicate (Z.to_nat n) (VInt 0)), w).
Proof.
  intros [Hlow Hhigh]. unfold list_repeat_zero.
  assert (Hfit : max_list_len < ssize_max) by (vm_compute; reflexivity).
  destruct (decide (n < ssize_min ∨ ssize_max < n)) as [Hout | _]; [lia |].
  destruct (decide (max_list_len < n)) as [Hbig | _]; [lia | reflexivity].
Qed.

Lemma list_repeat_zero_raises (n : Z) (w : World) :
  ¬ allocatable n →
  ∃ e, list_repeat_zero n w = (Raised e, w) ∧ (e = OverflowError ∨ e = MemoryError).
Proof.
  intros Hnot. unfold list_repeat_zero, allocatable in *.
  destruct (decide (n < ssize_min ∨ ssize_max < n)) as [Hout | Hin].
  - exists OverflowError. auto.
  - destruct (decide (max_list_len < n)) as [Hbig | Hsmall].
    + exists MemoryError. auto.
    + exfalso. apply Hnot. lia.
Qed.

Lemma list_repeat_zero_world (n : Z) (w : World) : snd (list_repeat_zero n w) = w.
Proof.
  unfold list_repeat_zero.
  destruct (decide (n < ssize_min ∨ ssize_max < n)); [reflexivity |].
  destruct (decide (max_list_len < n)); reflexivity.
Qed.











(** ** The getter hands out the store itself *)

Lemma addSystem_keeps_reference (name : string) (c : Z) (w : World) :
  _pressures (self (exec (addSystem name c) w)) = _pressures (self w).
Proof.
  unfold exec, addSystem, call, _addSystem.
  do 3 (rewrite run_bind; simpl).
  rewrite run_bind.
  destruct (decide (allocatable c)) as [Hfit | Hnot].
  - rewrite run_list_repeat_zero by exact Hfit.
    rewrite run_bind. simpl.
    rewrite run_bind. unfold list_append. simpl.
    destruct (_ !! _pressures (self w)); reflexivity.
  - destruct (list_repeat_zero_raises c
                (mkWorld (heap w)
                   (mkPieZense (_scale_factor (self w))
                      (_systems (self w) ++ [mkSystem name c None])
                      (_reconnect_task (self w)) (_pressures (self w)))
                   (log w ++ [EvCall (C_addSystem name c)]) (now w)) Hnot)
      as (e & -> & _).
    reflexivity.
Qed.

Lemma run_op_keeps_reference (o : op) (w : World) :
  _pressures (self (run_op o w)) = _pressures (self w).
Proof.
  destruct o; simpl; try reflexivity.
  - apply addSystem_keeps_reference.
  - apply keeps_connect.
Qed.

Lemma run_ops_keeps_reference (ops : list op) (w : World) :
  _pressures (self (run_ops ops w)) = _pressures (self w).
Proof.
  revert w. induction ops as [| o rest IH]; intros w; simpl.
  - reflexivity.
  - rewrite IH. apply run_op_keeps_reference.
Qed.

(** C8, as the claim states it, fails: the value returned for the one-pod
    store reads [[0, 0]] when the call returns; after a later
    [addSystem("Pod-B", 1)] the same value reads [[0, 0], [0]]; and after the
    caller's [r[0][0] = 997] the store itself reads [[997, 0]]. *)
Lemma getPressureReadings_not_a_copy :
  getPressureReadings pod_a = (Returned (_pressures (self pod_a)), pod_a)
  ∧ read_table (heap pod_a) (_pressures (self pod_a)) = Some [[0; 0]]
  ∧ read_table (heap two_pods) (_pressures (self pod_a)) = Some [[0; 0]; [0]]
  ∧ read_table (heap pod_a_written) (_pressures (self pod_a_written)) = Some [[997; 0]].
Proof.
  split; [reflexivity |].
  repeat split; vm_compute; reflexivity.
Qed.

(** C8, amended.  In every store state [getPressureReadings()] returns the
    reference held in [_pressures], the store's own list and not a copy, and
    changes nothing.  After any later operations the caller reads through
    the returned value exactly what the store then holds.  A write
    [r[i][j] = v] by the caller through the returned value, where row [i]
    exists and has a cell [j], succeeds and is a write to the list object
    that the store's row [i] refers to. *)
Theorem getPressureReadings_alias (w : World) :
  getPressureReadings w = (Returned (_pressures (self w)), w)
  ∧ (∀ ops,
       read_table (heap (run_ops ops w)) (_pressures (self w))
       = read_table (heap (run_ops ops w)) (_pressures (self (run_ops ops w))))
  ∧ (∀ rows i l cells j v,
       heap w !! _pressures (self w) = Some rows →
       rows !! i = Some (VRef l) →
       heap w !! l = Some cells →
       (j < length cells)%nat →
       caller_setitem (_pressures (self w)) i j v w
       = (Returned tt,
          mkWorld (<[l := <[j := VInt v]> cells]> (heap w)) (self w) (log w) (now w))).
Proof.
  split; [reflexivity |].
  split.
  - intros ops. rewrite run_ops_keeps_reference. reflexivity.
  - intros rows i l cells j v Hp Hi Hl Hj.
    unfold caller_setitem. rewrite run_bind.
    unfold list_getitem. rewrite Hp, Hi.
    unfold list_setitem. rewrite Hl.
    destruct (decide (j < length cells)%nat); [reflexivity | contradiction].
Qed.

(** * Further properties of the code *)

(** ** Registration *)

Lemma addSystem_registry (name : string) (c : Z) (w : World) :
  _systems (self (exec (addSystem name c) w))
  = _systems (self w) ++ [mkSystem name c None]
  ∧ _scale_factor (self (exec (addSystem name c) w)) = _scale_factor (self w).
Proof.
  unfold exec, addSystem, call, _addSystem.
  do 3 (rewrite run_bind; simpl).
  rewrite run_bind.
  destruct (decide (allocatable c)) as [Hfit | Hnot].
  - rewrite run_list_repeat_zero by exact Hfit.
    rewrite run_bind. simpl.
    rewrite run_bind. unfold list_append. simpl.
    destruct (_ !! _pressures (self w)); split; reflexivity.
  - destruct (list_repeat_zero_raises c
                (mkWorld (heap w)
                   (mkPieZense (_scale_factor (self w))
                      (_systems (self w) ++ [mkSystem name c None])
                      (_reconnect_task (self w)) (_pressures (self w)))
                   (log w ++ [EvCall (C_addSystem name c)]) (now w)) Hnot)
      as (e & -> & _).
    split; reflexivity.
Qed.


(** [addSystem] with a count for which [[0]*channel_count] raises: the
    registry entry is already appended, nothing else has happened. *)
Lemma addSystem_raises (name : string) (c : Z) (w : World) :
  ¬ allocatable c →
  ∃ e w', addSystem name c w = (Raised e, w')
          ∧ (e = OverflowError ∨ e = MemoryError)
          ∧ _systems (self w') = _systems (self w) ++ [mkSystem name c None]
          ∧ _pressures (self w') = _pressures (self w)
          ∧ heap w' = heap w.
Proof.
  intros Hnot.
  unfold addSystem, call, _addSystem.
  do 3 (rewrite run_bind; simpl).
  rewrite run_bind.
  destruct (list_repeat_zero_raises c
              (mkWorld (heap w)
                 (mkPieZense (_scale_factor (self w))
                    (_systems (self w) ++ [mkSystem name c None])
                    (_reconnect_task (self w)) (_pressures (self w)))
                 (log w ++ [EvCall (C_addSystem name c)]) (now w)) Hnot)
    as (e & -> & He).
  exists e. eexists. split; [reflexivity |]. simpl. auto.
Qed.



Lemma py_all_app (l k : list pyobj) : py_all (l ++ k) = py_all l && py_all k.
Proof.
  induction l as [| x rest IH]; simpl; [reflexivity |].
  destruct (truthy x); [exact IH | reflexivity].
Qed.

(** X2.  In every state, right after [addSystem] the query
    [isEverythingConnected()] returns false: a new entry has no client. *)
Theorem addSystem_then_not_everything_connected (name : string) (c : Z) (w : World) :
  fst (isEverythingConnected (exec (addSystem name c) w)) = Returned false.
Proof.
  rewrite isEverythingConnected_run. simpl.
  destruct (addSystem_registry name c w) as [-> _].
  rewrite map_app, py_all_app. simpl. rewrite andb_false_r. reflexivity.
Qed.

(** ** Operations without effect *)

(** X3.  Any sequence of operations other than [addSystem] and [connect]
    (the setpoint, configuration, forwarding, callback and mode operations,
    whatever indices and batches they are given, and the two queries): every
    one of them returns, none raises, and the sequence leaves the whole world
    as it was, registry, readings, connection state and recorded events. *)
Theorem inert_operations_change_nothing (ops : list op) (w : World) :
  forallb inert ops = true →
  run_ops ops w = w
  ∧ Forall (fun o => op_returns o w = true ∧ run_op o w = w) ops.
Proof.
  intros Hinert.
  assert (Heach : Forall (fun o => op_returns o w = true ∧ run_op o w = w) ops).
  { induction ops as [| o rest IH]; [constructor |].
    simpl in Hinert. apply andb_prop in Hinert. destruct Hinert as [Ho Hrest].
    constructor; [| apply IH, Hrest].
    destruct o; simpl in Ho; try discriminate; split; reflexivity. }
  split; [| exact Heach].
  clear Hinert. induction Heach as [| o rest [_ Ho] _ IH]; simpl.
  - reflexivity.
  - rewrite Ho. exact IH.
Qed.

Lemma inert_operations_change_nothing_witness :
  run_ops [OsendSetpoint 7 (-1) 1013; OsetMode demo_mode; OclearAllForwarding;
           OsendConfigBatch [(5, 5, ∅)]; OisEverythingConnected] pod_a
  = pod_a
  ∧ op_returns (OsendSetpoint 7 (-1) 1013) pod_a = true.
Proof.
  destruct (inert_operations_change_nothing
              [OsendSetpoint 7 (-1) 1013; OsetMode demo_mode; OclearAllForwarding;
               OsendConfigBatch [(5, 5, ∅)]; OisEverythingConnected] pod_a)
    as [Hsame Heach].
  - reflexivity.
  - split; [exact Hsame |].
    inversion Heach as [| ? ? [Hret _] _]. exact Hret.
Defined.

(** ** What the reconnect loop can change *)

Section Frames.
Variable R : World → World → Prop.
Hypothesis R_refl : ∀ w, R w w.
Hypothesis R_trans : ∀ w1 w2 w3, R w1 w2 → R w2 w3 → R w1 w3.
Hypothesis R_record : ∀ w l t, R w (mkWorld (heap w) (self w) l t).
Hypothesis R_client : ∀ w i c, R w (snd (set_client i c w)).

Lemma frames_ret {A} (a : A) : frames R (ret a).
Proof. intros w. apply R_refl. Qed.

Lemma frames_raise {A} (e : error) : frames R (@raise A e).
Proof. intros w. apply R_refl. Qed.

Lemma frames_get_self : frames R get_self.
Proof. intros w. apply R_refl. Qed.

Lemma frames_emit (e : event) : frames R (emit e).
Proof. intros w. apply R_record. Qed.

Lemma frames_tick : frames R tick.
Proof. intros w. apply R_record. Qed.

Lemma frames_set_client (i : nat) (c : option Client) : frames R (set_client i c).
Proof. intros w. apply R_client. Qed.

Lemma frames_bind {A B} (m : M A) (k : A → M B) :
  frames R m → (∀ a, frames R (k a)) → frames R (m ≫= k).
Proof.
  intros Hm Hk w. rewrite run_bind.
  pose proof (Hm w) as Hw.
  destruct (m w) as [[a | e |] w']; simpl in Hw; try exact Hw.
  eapply R_trans; [exact Hw | apply Hk].
Qed.

Lemma frames_for_each {A} (body : A → M unit) (l : list A) :
  (∀ x, frames R (body x)) → frames R (for_each body l).
Proof.
  intros Hbody. induction l as [| x rest IH]; simpl.
  - apply frames_ret.
  - apply frames_bind; [apply Hbody | intros _; exact IH].
Qed.

Ltac frames_step :=
  first
    [ apply frames_set_client
    | apply frames_ret
    | apply frames_raise
    | apply frames_get_self
    | apply frames_emit
    | apply frames_tick
    | apply frames_bind; [| intros ?]
    | match goal with
      | |- frames _ (match ?x with _ => _ end) => destruct x
      end ].

Lemma frames_get_system (i : nat) : frames R (get_system i).
Proof. unfold get_system. repeat frames_step. Qed.

Lemma frames_sleep (seconds : Q) : frames R (sleep seconds).
Proof. unfold sleep. repeat frames_step. Qed.

Lemma frames_scan (bleak : Transport) (name : string) : frames R (scan bleak name).
Proof. unfold scan. repeat frames_step. Qed.

Lemma frames_client_connect (bleak : Transport) (i : nat) :
  frames R (client_connect bleak i).
Proof.
  unfold client_connect.
  apply frames_bind; [apply frames_get_system | intros system].
  repeat frames_step.
Qed.

Lemma frames_connect_body (bleak : Transport) (i : nat) :
  frames R (_connect_body bleak i).
Proof.
  unfold _connect_body, print.
  apply frames_bind; [apply frames_get_system | intros system].
  apply frames_bind; [| intros _; apply frames_sleep].
  destruct (needs_connection system); [| apply frames_ret].
  apply frames_bind; [apply frames_emit | intros _].
  apply frames_bind; [apply frames_scan | intros found].
  apply frames_bind; [apply frames_emit | intros _].
  destruct found as [d |]; [| apply frames_ret].
  apply frames_bind; [apply frames_emit | intros _].
  apply frames_bind; [apply frames_set_client | intros _].
  apply frames_bind; [apply frames_client_connect | intros _].
  apply frames_bind; [apply frames_get_system | intros system'].
  repeat frames_step.
Qed.

Lemma frames__connect (bleak : Transport) (fuel : nat) : frames R (_connect bleak fuel).
Proof.
  induction fuel as [| fuel IH]; simpl.
  - intros w. apply R_refl.
  - apply frames_bind; [apply frames_get_self | intros s].
    apply frames_bind; [| intros _; exact IH].
    apply frames_for_each. intros i. apply frames_connect_body.
Qed.

Lemma frames_connect (bleak : Transport) (fuel : nat) : frames R (connect bleak fuel).
Proof.
  intros w. rewrite run_connect.
  pose proof (frames__connect bleak fuel (exec (emit (EvCall C_connect)) w)) as Hloop.
  assert (Hcall : R w (exec (emit (EvCall C_connect)) w)) by apply R_record.
  destruct (_connect_no_return bleak fuel (exec (emit (EvCall C_connect)) w))
    as (w' & [Hout | (e & Hraise)]).
  - rewrite Hout in *. eapply R_trans; [exact Hcall | exact Hloop].
  - rewrite Hraise in *. eapply R_trans; [exact Hcall | exact Hloop].
Qed.
End Frames.

Lemma identities_alter_client (c : option Client) (i : nat) (systems : list _System) :
  map (fun system => (system_name system, channel_count system))
    (alter (fun system => mkSystem (system_name system) (channel_count system) c) i systems)
  = map (fun system => (system_name system, channel_count system)) systems.
Proof.
  revert i. induction systems as [| system rest IH]; intros [| i]; simpl;
    try reflexivity.
  f_equal. apply IH.
Qed.

Lemma connect_same_registry (bleak : Transport) (fuel : nat) :
  frames same_registry (connect bleak fuel).
Proof.
  apply frames_connect.
  - intros w. split; reflexivity.
  - intros w1 w2 w3 [Hi Hs] [Hi' Hs']. split; congruence.
  - intros w l t. split; reflexivity.
  - intros w i c. unfold set_client. rewrite run_bind. simpl.
    split; [| reflexivity].
    unfold identities. simpl. apply identities_alter_client.
Qed.

Lemma run_op_registry (o : op) (w : World) :
  identities w `prefix_of` identities (run_op o w)
  ∧ _scale_factor (self (run_op o w)) = _scale_factor (self w).
Proof.
  destruct o; simpl; try (split; reflexivity).
  - destruct (addSystem_registry system_name0 channel_count0 w) as [Hsys Hscale].
    split; [| exact Hscale].
    unfold identities. rewrite Hsys, map_app. apply prefix_app_r. reflexivity.
  - destruct (connect_same_registry bleak fuel w) as [Hid Hscale].
    unfold exec. rewrite Hid. split; [reflexivity | exact Hscale].
Qed.

(** X4.  Through any sequence of public operations the registry only
    grows at its end: an index handed out by [addSystem] keeps designating
    the same name and channel count for ever (the reconnect loop changes
    clients only, nothing removes or reorders entries), and the scale factor
    given to the constructor is never changed. *)
Theorem registry_indices_stable (ops : list op) (w : World) :
  identities w `prefix_of` identities (run_ops ops w)
  ∧ (∀ i id, identities w !! i = Some id → identities (run_ops ops w) !! i = Some id)
  ∧ _scale_factor (self (run_ops ops w)) = _scale_factor (self w).
Proof.
  assert (Hgoal : identities w `prefix_of` identities (run_ops ops w)
                  ∧ _scale_factor (self (run_ops ops w)) = _scale_factor (self w)).
  { revert w. induction ops as [| o rest IH]; intros w; simpl.
    - split; reflexivity.
    - destruct (run_op_registry o w) as [Hpre Hscale].
      destruct (IH (run_op o w)) as [Hpre' Hscale'].
      split; [etrans; eassumption | congruence]. }
  destruct Hgoal as [Hpre Hscale].
  split; [exact Hpre |]. split; [| exact Hscale].
  intros i id Hi. eapply prefix_lookup_Some; eassumption.
Qed.

(** ** One visit of the reconnect loop *)

Lemma needs_connection_true (system : _System) :
  needs_connection system = true ↔ ¬ connected system.
Proof.
  unfold needs_connection, connected.
  destruct (client system) as [c |]; simpl.
  - destruct (is_connected c) eqn:Hup; simpl.
    + split; [discriminate |]. intros Hnot. exfalso. apply Hnot. eauto.
    + split; [| reflexivity]. intros _ (c' & Hc' & Hup'). congruence.
  - split; [| reflexivity]. intros _ (c' & Hc' & _). discriminate.
Qed.

Lemma needs_connection_false (system : _System) :
  connected system → needs_connection system = false.
Proof.
  intros Hconn. destruct (needs_connection system) eqn:Hneeds; [| reflexivity].
  apply needs_connection_true in Hneeds. contradiction.
Qed.

Lemma run_sleep (seconds : Q) (w : World) :
  sleep seconds w
  = (Returned tt, mkWorld (heap w) (self w) (log w ++ [EvSleep seconds]) (S (now w))).
Proof. reflexivity. Qed.

(** X5.  A visit to a system that is connected consults no transport and
    changes nothing: it only awaits [sleep(10)]. *)
Theorem visit_skips_connected (bleak : Transport) (i : nat) (system : _System) (w : World) :
  _systems (self w) !! i = Some system →
  connected system →
  _connect_body bleak i w
  = (Returned tt, mkWorld (heap w) (self w) (log w ++ [EvSleep 10]) (S (now w))).
Proof.
  intros Hi Hconn. unfold _connect_body.
  rewrite run_bind, (run_get_system i system) by exact Hi.
  rewrite (needs_connection_false system Hconn).
  reflexivity.
Qed.

Lemma visit_skips_connected_witness :
  _connect_body scanner_down 0 pod_a_linked
  = (Returned tt,
     mkWorld (heap pod_a_linked) (self pod_a_linked) (log pod_a_linked ++ [EvSleep 10])
       (S (now pod_a_linked))).
Proof.
  apply (visit_skips_connected scanner_down 0
           (mkSystem "Pod-A" 2 (Some (mkClient "AA:BB" true))) pod_a_linked).
  - reflexivity.
  - exists (mkClient "AA:BB" true). split; reflexivity.
Defined.

(** X6.  A visit to a system that is not connected and whose device the
    scanner does not find leaves the registry as it was, a stale client
    included, and then awaits [sleep(10)]: the only trace is the two
    progress lines around the scan. *)
Theorem visit_device_not_found (bleak : Transport) (i : nat) (system : _System) (w : World) :
  _systems (self w) !! i = Some system →
  ¬ connected system →
  find_device_by_name bleak (now w) (system_name system) = Reply None →
  _connect_body bleak i w
  = (Returned tt,
     mkWorld (heap w) (self w)
       (log w ++ [EvPrint ("Need device: " +:+ system_name system);
                  EvScan (system_name system);
                  EvPrint ("Scanned for device: " +:+ system_name system);
                  EvSleep 10])
       (S (S (now w)))).
Proof.
  intros Hi Hnot Hscan. apply needs_connection_true in Hnot.
  unfold _connect_body.
  rewrite run_bind, (run_get_system i system) by exact Hi.
  rewrite Hnot.
  rewrite run_bind. rewrite run_bind. simpl. rewrite run_bind. unfold scan.
  rewrite run_bind. simpl. rewrite run_bind. simpl.
  rewrite Hscan. simpl. rewrite run_sleep. simpl.
  repeat rewrite <- app_assoc. reflexivity.
Qed.

Lemma visit_device_not_found_witness :
  fst (_connect_body nothing_found 0 pod_a) = Returned tt
  ∧ self (snd (_connect_body nothing_found 0 pod_a)) = self pod_a.
Proof.
  rewrite (visit_device_not_found nothing_found 0 (mkSystem "Pod-A" 2 None) pod_a).
  - split; reflexivity.
  - reflexivity.
  - intros (c & Hc & _). discriminate.
  - reflexivity.
Defined.

Lemma list_alter_as_insert {A} (f : A → A) (i : nat) (x : A) (l : list A) :
  l !! i = Some x → alter f i l = <[i := f x]> l.
Proof.
  revert i. induction l as [| y rest IH]; intros [| i] Hi; simpl in *;
    try discriminate.
  - injection Hi as ->. reflexivity.
  - f_equal. apply IH, Hi.
Qed.

(** X7.  A visit to a system that is not connected, whose device the
    scanner finds and whose connect attempt returns: afterwards the entry
    holds a client for that device when the link is up, and no client at all
    when it is not; name, channel count and every other entry are as they
    were, the object store is untouched, and the visit took three awaits
    (scan, connect, sleep). *)
Theorem visit_device_found
    (bleak : Transport) (i : nat) (system : _System) (d : Device) (up : bool) (w : World) :
  _systems (self w) !! i = Some system →
  ¬ connected system →
  find_device_by_name bleak (now w) (system_name system) = Reply (Some d) →
  bleak_connect bleak (S (now w)) d = Reply up →
  ∃ w', _connect_body bleak i w = (Returned tt, w')
        ∧ _systems (self w')
          = <[i := with_client system (if up then Some (mkClient d true) else None)]>
              (_systems (self w))
        ∧ heap w' = heap w
        ∧ now w' = S (S (S (now w))).
Proof.
  intros Hi Hnot Hscan Hconn. apply needs_connection_true in Hnot.
  unfold _connect_body.
  rewrite run_bind, (run_get_system i system) by exact Hi.
  rewrite Hnot.
  rewrite run_bind. rewrite run_bind. simpl. rewrite run_bind. unfold scan.
  rewrite run_bind. simpl. rewrite run_bind. simpl.
  rewrite Hscan. simpl. rewrite run_bind. simpl.
  rewrite run_bind. simpl. rewrite run_bind. simpl.
  rewrite run_bind. unfold client_connect.
  rewrite run_bind.
  erewrite run_get_system
    by (simpl; rewrite list_lookup_alter_eq, Hi; reflexivity).
  simpl. rewrite run_bind. simpl. rewrite run_bind. simpl.
  rewrite Hconn.
  simpl. rewrite run_bind.
  erewrite run_get_system
    by (simpl; rewrite !list_lookup_alter_eq, Hi; reflexivity).
  simpl. destruct up.
  - rewrite run_bind. simpl. eexists. split; [reflexivity |].
    simpl. split; [| split; reflexivity].
    rewrite !list_alter_alter_eq.
    rewrite (list_alter_as_insert _ i system) by exact Hi. reflexivity.
  - rewrite run_bind. simpl. eexists. split; [reflexivity |].
    simpl. split; [| split; reflexivity].
    rewrite !list_alter_alter_eq.
    rewrite (list_alter_as_insert _ i system) by exact Hi. reflexivity.
Qed.

Lemma visit_device_found_witness :
  ∃ w', _connect_body never_links 0 pod_a = (Returned tt, w')
        ∧ _systems (self w') = [mkSystem "Pod-A" 2 None].
Proof.
  destruct (visit_device_found never_links 0 (mkSystem "Pod-A" 2 None) "AA:BB" false pod_a)
    as (w' & Hrun & Hsys & _).
  - reflexivity.
  - intros (c & Hc & _). discriminate.
  - reflexivity.
  - reflexivity.
  - exists w'. split; [exact Hrun | exact Hsys].
Defined.

(** X8.  When the connect attempt of a visit raises, the exception leaves
    the visit, and the entry is left holding the new client, which is not
    connected: a later query counts the system as not connected, a later
    visit scans for it again. *)
Theorem visit_connect_raises
    (bleak : Transport) (i : nat) (system : _System) (d : Device) (w : World) :
  _systems (self w) !! i = Some system →
  ¬ connected system →
  find_device_by_name bleak (now w) (system_name system) = Reply (Some d) →
  bleak_connect bleak (S (now w)) d = Fails →
  ∃ w', _connect_body bleak i w = (Raised BleakError, w')
        ∧ _systems (self w')
          = <[i := with_client system (Some (mkClient d false))]> (_systems (self w))
        ∧ heap w' = heap w.
Proof.
  intros Hi Hnot Hscan Hconn. apply needs_connection_true in Hnot.
  unfold _connect_body.
  rewrite run_bind, (run_get_system i system) by exact Hi.
  rewrite Hnot.
  rewrite run_bind. rewrite run_bind. simpl. rewrite run_bind. unfold scan.
  rewrite run_bind. simpl. rewrite run_bind. simpl.
  rewrite Hscan. simpl. rewrite run_bind. simpl.
  rewrite run_bind. simpl. rewrite run_bind. simpl.
  rewrite run_bind. unfold client_connect.
  rewrite run_bind.
  erewrite run_get_system
    by (simpl; rewrite list_lookup_alter_eq, Hi; reflexivity).
  simpl. rewrite run_bind. simpl. rewrite run_bind. simpl.
  rewrite Hconn. simpl.
  eexists. split; [reflexivity |].
  simpl. split; [| reflexivity].
  rewrite (list_alter_as_insert _ i system) by exact Hi. reflexivity.
Qed.

Lemma visit_connect_raises_witness :
  ∃ w', _connect_body connect_raises 0 pod_a = (Raised BleakError, w')
        ∧ _systems (self w') = [mkSystem "Pod-A" 2 (Some (mkClient "AA:BB" false))].
Proof.
  destruct (visit_connect_raises connect_raises 0 (mkSystem "Pod-A" 2 None) "AA:BB" pod_a)
    as (w' & Hrun & Hsys & _).
  - reflexivity.
  - intros (c & Hc & _). discriminate.
  - reflexivity.
  - reflexivity.
  - exists w'. split; [exact Hrun | exact Hsys].
Defined.

(** ** A turn of the loop *)

Lemma for_each_app {A} (body : A → M unit) (l k : list A) (w : World) :
  for_each body (l ++ k) w
  = match for_each body l w with
    | (Returned _, w') => for_each body k w'
    | (Raised e, w') => (Raised e, w')
    | (OutOfFuel, w') => (OutOfFuel, w')
    end.
Proof.
  revert w. induction l as [| x rest IH]; intros w; simpl.
  - reflexivity.
  - rewrite !run_bind. destruct (body x w) as [[[] | e |] w1]; [apply IH | |]; reflexivity.
Qed.

(** Visits to connected systems only sleep, one after the other. *)
Lemma for_each_skips (bleak : Transport) (l : list nat) (w : World) :
  Forall (fun i => ∃ system, _systems (self w) !! i = Some system ∧ connected system) l →
  for_each (_connect_body bleak) l w
  = (Returned tt,
     mkWorld (heap w) (self w) (log w ++ replicate (length l) (EvSleep 10))
       (length l + now w)).
Proof.
  revert w. induction l as [| i rest IH]; intros w Hall; simpl.
  - rewrite app_nil_r. destruct w; reflexivity.
  - inversion Hall as [| ? ? (system & Hi & Hconn) Hrest]; subst.
    assert (Hvisit : _connect_body bleak i w
                     = (Returned tt,
                        mkWorld (heap w) (self w) (log w ++ [EvSleep 10]) (S (now w)))).
    { unfold _connect_body.
      rewrite run_bind, (run_get_system i system) by exact Hi.
      rewrite (needs_connection_false system Hconn). reflexivity. }
    rewrite run_bind, Hvisit, IH by exact Hrest.
    simpl. rewrite <- app_assoc. simpl.
    replace (length rest + S (now w))%nat with (S (length rest + now w)) by lia.
    reflexivity.
Qed.

Lemma visit_scan_raises (bleak : Transport) (i : nat) (system : _System) (w : World) :
  _systems (self w) !! i = Some system →
  needs_connection system = true →
  find_device_by_name bleak (now w) (system_name system) = Fails →
  ∃ w', _connect_body bleak i w = (Raised BleakError, w')
        ∧ self w' = self w ∧ heap w' = heap w.
Proof.
  intros Hi Hneeds Hscan. unfold _connect_body.
  rewrite run_bind, (run_get_system i system) by exact Hi.
  rewrite Hneeds.
  rewrite run_bind. rewrite run_bind. simpl. rewrite run_bind. unfold scan.
  rewrite run_bind. simpl. rewrite run_bind. simpl.
  rewrite Hscan. simpl.
  eexists. split; [reflexivity | split; reflexivity].
Qed.

(** X9.  When the scanner raises while the first turn of the loop looks
    for the first system that is not connected (the systems before it are
    connected and only slept over), [connect()] ends with that exception:
    the loop has no handler and makes no further attempt, and registry and
    readings are left as they were. *)
Theorem connect_ends_on_scanner_error
    (bleak : Transport) (fuel i : nat) (system : _System) (w : World) :
  _systems (self w) !! i = Some system →
  ¬ connected system →
  (∀ j s, (j < i)%nat → _systems (self w) !! j = Some s → connected s) →
  find_device_by_name bleak (i + now w) (system_name system) = Fails →
  ∃ w', connect bleak (S fuel) w = (Raised BleakError, w')
        ∧ self w' = self w ∧ heap w' = heap w.
Proof.
  intros Hi Hnot Hbefore Hscan. apply needs_connection_true in Hnot.
  rewrite run_connect. simpl.
  rewrite run_bind. simpl. rewrite run_bind.
  pose proof (lookup_lt_Some _ _ _ Hi) as Hlt.
  replace (length (_systems (self w))) with (i + S (length (_systems (self w)) - S i))%nat
    by lia.
  rewrite seq_app. simpl seq.
  rewrite for_each_app, for_each_skips.
  - simpl for_each. rewrite run_bind.
    destruct (visit_scan_raises bleak i system
                (mkWorld (heap w) (self w)
                   ((log w ++ [EvCall C_connect]) ++ replicate (length (seq 0 i)) (EvSleep 10))
                   (length (seq 0 i) + now w)))
      as (w' & Hrun & Hself & Hheap).
    + exact Hi.
    + exact Hnot.
    + simpl. rewrite length_seq. exact Hscan.
    + simpl in *. rewrite Hrun. exists w'. split; [reflexivity | split; assumption].
  - apply Forall_forall. intros j Hj. apply elem_of_seq in Hj. simpl.
    destruct (lookup_lt_is_Some_2 (_systems (self w)) j) as [s Hs]; [lia |].
    exists s. split; [exact Hs |]. apply (Hbefore j s); [lia | exact Hs].
Qed.

Lemma connect_ends_on_scanner_error_witness :
  ∃ w', connect scanner_down 5 pod_a = (Raised BleakError, w') ∧ self w' = self pod_a.
Proof.
  destruct (connect_ends_on_scanner_error scanner_down 4 0 (mkSystem "Pod-A" 2 None) pod_a)
    as (w' & Hrun & Hself & _).
  - reflexivity.
  - intros (c & Hc & _). discriminate.
  - intros j s Hj. lia.
  - reflexivity.
  - exists w'. split; assumption.
Defined.

(** ** Row objects *)

Lemma distinct_rows_init (scale : Q) (h : gmap loc (list pyval)) :
  distinct_rows (__init__ scale h).
Proof.
  exists []. simpl. rewrite lookup_insert_eq.
  split; [reflexivity |]. split; [| constructor].
  apply NoDup_singleton.
Qed.

(** The object store after an [addSystem] whose row can be made. *)
Lemma addSystem_heap (name : string) (c : Z) (rows : list pyval) (w : World) :
  allocatable c →
  heap w !! _pressures (self w) = Some rows →
  heap (exec (addSystem name c) w)
  = <[_pressures (self w) := rows ++ [VRef (fresh (dom (heap w)))]]>
      (<[fresh (dom (heap w)) := replicate (Z.to_nat c) (VInt 0)]> (heap w)).
Proof.
  intros Hfit Hp.
  pose proof (fresh_unallocated (heap w)) as Hfresh.
  unfold exec, addSystem, call, _addSystem.
  do 3 (rewrite run_bind; simpl).
  rewrite run_bind, run_list_repeat_zero by exact Hfit.
  rewrite run_bind. simpl.
  rewrite run_bind.
  rewrite (run_list_append _ _ rows)
    by (simpl; rewrite lookup_insert_ne by congruence; exact Hp).
  reflexivity.
Qed.

Lemma addSystem_heap_raises (name : string) (c : Z) (w : World) :
  ¬ allocatable c → heap (exec (addSystem name c) w) = heap w.
Proof.
  intros Hnot.
  destruct (addSystem_raises name c w Hnot) as (e & w' & Hrun & _ & _ & _ & Hh).
  unfold exec. rewrite Hrun. exact Hh.
Qed.

Lemma distinct_rows_addSystem (name : string) (c : Z) (w : World) :
  distinct_rows w → distinct_rows (exec (addSystem name c) w).
Proof.
  intros (locs & Hp & Hnodup & Hlive).
  pose proof (fresh_unallocated (heap w)) as Hfresh.
  unfold distinct_rows. rewrite addSystem_keeps_reference.
  destruct (decide (allocatable c)) as [Hfit | Hnot].
  - rewrite (addSystem_heap name c _ w Hfit Hp).
    set (l := fresh (dom (heap w))) in *.
    assert (Hnew : l ∉ _pressures (self w) :: locs).
    { intros Hin. apply elem_of_cons in Hin. destruct Hin as [-> | Hin]; [congruence |].
      rewrite Forall_forall in Hlive. destruct (Hlive l Hin) as [cells Hcells]. congruence. }
    exists (locs ++ [l]). rewrite lookup_insert_eq, fmap_app.
    split; [reflexivity |]. split.
    + apply NoDup_cons in Hnodup. destruct Hnodup as [Hp_out Hlocs].
      apply NoDup_cons. split.
      * intros Hin. apply elem_of_app in Hin. destruct Hin as [Hin | Hin]; [contradiction |].
        apply list_elem_of_singleton in Hin. apply Hnew. rewrite <- Hin. left.
      * apply NoDup_app. split; [exact Hlocs |]. split; [| apply NoDup_singleton].
        intros x Hx Hx'. apply list_elem_of_singleton in Hx'. subst x.
        apply Hnew. right. exact Hx.
    + apply Forall_app. split.
      * eapply Forall_impl; [exact Hlive |]. intros x Hx. simpl in Hx.
        apply lookup_insert_is_Some'. right. apply lookup_insert_is_Some'. right. exact Hx.
      * constructor; [| constructor].
        apply lookup_insert_is_Some'. right. apply lookup_insert_is_Some'. left. reflexivity.
  - rewrite (addSystem_heap_raises name c w Hnot). exists locs. auto.
Qed.

Lemma distinct_rows_run_op (o : op) (w : World) : distinct_rows w → distinct_rows (run_op o w).
Proof.
  intros Hrows. destruct o; simpl; try exact Hrows.
  - apply distinct_rows_addSystem, Hrows.
  - destruct (keeps_connect bleak fuel w) as (Hh & Hp & _).
    destruct Hrows as (locs & Hlocs & Hnodup & Hlive).
    exists locs. unfold exec. rewrite Hh, Hp. auto.
Qed.





Lemma mapM_read_int_insert (cells : list pyval) (row : list Z) (j : nat) (v : Z) :
  mapM read_int cells = Some row →
  mapM read_int (<[j := VInt v]> cells) = Some (<[j := v]> row).
Proof.
  intros Hrow. apply mapM_Some_2. apply mapM_Some_1 in Hrow.
  apply Forall2_insert; [exact Hrow | reflexivity].
Qed.

(** X11.  On a table whose rows are distinct objects, a caller's
    [r[i][j] = v] through the list that [getPressureReadings()] returned,
    for an existing row [i] and cell [j], changes that one cell of the
    store's readings and nothing else: every other row and every other cell
    reads as before, the object itself is untouched, and the rows stay
    distinct. *)
Theorem caller_write_changes_one_cell
    (i j : nat) (v : Z) (table : list (list Z)) (row : list Z) (w : World) :
  distinct_rows w →
  read_table (heap w) (_pressures (self w)) = Some table →
  table !! i = Some row →
  (j < length row)%nat →
  ∃ w', caller_setitem (_pressures (self w)) i j v w = (Returned tt, w')
        ∧ read_table (heap w') (_pressures (self w')) = Some (<[i := <[j := v]> row]> table)
        ∧ self w' = self w
        ∧ distinct_rows w'.
Proof.
  intros (locs & Hp & Hnodup & Hlive) Htable Hi Hj.
  unfold read_table in Htable. rewrite Hp in Htable. simpl in Htable.
  apply mapM_Some_1 in Htable.
  destruct (Forall2_lookup_r _ _ _ _ _ Htable Hi) as (x & Hx & Hread).
  rewrite list_lookup_fmap in Hx.
  destruct (locs !! i) as [l |] eqn:Hl; [| discriminate].
  simpl in Hx. injection Hx as <-.
  simpl in Hread.
  destruct (heap w !! l) as [cells |] eqn:Hcells; [| discriminate].
  simpl in Hread.
  assert (Hlen : length cells = length row).
  { apply mapM_Some_1 in Hread. eapply Forall2_length, Hread. }
  apply NoDup_cons in Hnodup. destruct Hnodup as [Hp_out Hlocs].
  assert (Hne : l ≠ _pressures (self w)).
  { intros ->. apply Hp_out. apply list_elem_of_lookup. eauto. }
  unfold caller_setitem. rewrite run_bind.
  unfold list_getitem. rewrite Hp, list_lookup_fmap, Hl. simpl.
  unfold list_setitem. rewrite Hcells.
  destruct (decide (j < length cells)%nat) as [_ | Hbad]; [| lia].
  eexists. split; [reflexivity |]. simpl.
  split; [| split; [reflexivity |]].
  - unfold read_table. rewrite lookup_insert_ne by exact Hne. rewrite Hp. simpl.
    apply mapM_Some_2. apply Forall2_same_length_lookup. split.
    + rewrite length_insert. eapply Forall2_length, Htable.
    + intros k x r Hx Hr.
      rewrite list_lookup_fmap in Hx.
      destruct (locs !! k) as [lk |] eqn:Hlk; [| discriminate].
      simpl in Hx. injection Hx as <-.
      destruct (decide (k = i)) as [-> | Hki].
      * assert (lk = l) as -> by congruence.
        rewrite list_lookup_insert_eq in Hr by (eapply lookup_lt_Some, Hi).
        injection Hr as <-.
        simpl. rewrite lookup_insert_eq. simpl.
        apply mapM_read_int_insert, Hread.
      * rewrite list_lookup_insert_ne in Hr by congruence.
        assert (Hlkl : lk ≠ l).
        { intros ->. apply Hki. eapply NoDup_lookup; eassumption. }
        simpl. rewrite lookup_insert_ne by congruence.
        assert (Hxk : (VRef <$> locs) !! k = Some (VRef lk))
          by (rewrite list_lookup_fmap, Hlk; reflexivity).
        destruct (Forall2_lookup_l _ _ _ _ _ Htable Hxk) as (r' & Hr' & Hread').
        assert (r' = r) as -> by congruence.
        exact Hread'.
  - exists locs. simpl. rewrite lookup_insert_ne by exact Hne.
    split; [exact Hp |]. split; [apply NoDup_cons; auto |].
    eapply Forall_impl; [exact Hlive |]. intros x Hsome. simpl in Hsome.
    apply lookup_insert_is_Some'. right. exact Hsome.
Qed.

Lemma caller_write_changes_one_cell_witness :
  ∃ w', caller_setitem (_pressures (self two_pods)) 1 0 500 two_pods = (Returned tt, w')
        ∧ read_table (heap w') (_pressures (self w')) = Some [[0; 0]; [500]].
Proof.
  destruct (caller_write_changes_one_cell 1 0 500 [[0; 0]; [0]] [0] two_pods)
    as (w' & Hrun & Ht & _).
  - apply (distinct_rows_run_op (OaddSystem "Pod-B" 1)),
      (distinct_rows_run_op (OaddSystem "Pod-A" 2)), distinct_rows_init.
  - vm_compute. reflexivity.
  - reflexivity.
  - simpl. lia.
  - exists w'. split; [exact Hrun | exact Ht].
Defined.

(** ** Turns of the loop with a transport that answers *)

Lemma with_client_same (system : _System) : with_client system (client system) = system.
Proof. destruct system; reflexivity. Qed.

(** What one visit does when the transport answers: the entry keeps its
    client (connected, or device not found), gets a connected client (found
    and linked) or loses its client (found, not linked); then one sleep. *)
Lemma visit_outcome (bleak : Transport) (i : nat) (system : _System) (w : World) :
  always_replies bleak →
  _systems (self w) !! i = Some system →
  ∃ w' c,
    _connect_body bleak i w = (Returned tt, w')
    ∧ _systems (self w') = <[i := with_client system c]> (_systems (self w))
    ∧ heap w' = heap w
    ∧ sleep_events (log w') = sleep_events (log w) ++ [10%Q]
    ∧ ((connected system ∧ c = client system)
       ∨ (¬ connected system
          ∧ find_device_by_name bleak (now w) (system_name system) = Reply None
          ∧ c = client system)
       ∨ (¬ connected system
          ∧ ∃ d, find_device_by_name bleak (now w) (system_name system) = Reply (Some d)
                 ∧ ((bleak_connect bleak (S (now w)) d = Reply true
                     ∧ c = Some (mkClient d true))
                    ∨ (bleak_connect bleak (S (now w)) d = Reply false ∧ c = None)))).
Proof.
  intros [Hscan Hconn] Hi.
  unfold _connect_body.
  rewrite run_bind, (run_get_system i system) by exact Hi.
  destruct (needs_connection system) eqn:Hneeds.
  - assert (Hnot : ¬ connected system) by (apply needs_connection_true, Hneeds).
    rewrite run_bind. rewrite run_bind. simpl. rewrite run_bind. unfold scan.
    rewrite run_bind. simpl. rewrite run_bind. simpl.
    specialize (Hscan (now w) (system_name system)).
    destruct (find_device_by_name bleak (now w) (system_name system)) as [found |] eqn:Hfind;
      [| congruence].
    simpl. rewrite run_bind. simpl.
    destruct found as [d |].
    + rewrite run_bind. simpl. rewrite run_bind. simpl.
      rewrite run_bind. unfold client_connect.
      rewrite run_bind.
      erewrite run_get_system
        by (simpl; rewrite list_lookup_alter_eq, Hi; reflexivity).
      simpl. rewrite run_bind. simpl. rewrite run_bind. simpl.
      specialize (Hconn (S (now w)) d).
      destruct (bleak_connect bleak (S (now w)) d) as [up |] eqn:Hup; [| congruence].
      simpl. rewrite run_bind.
      erewrite run_get_system
        by (simpl; rewrite !list_lookup_alter_eq, Hi; reflexivity).
      simpl. destruct up.
      * repeat (rewrite run_bind; simpl). rewrite run_sleep.
        eexists. exists (Some (mkClient d true)). split; [reflexivity |]. simpl.
        split.
        { rewrite !list_alter_alter_eq.
          rewrite (list_alter_as_insert _ i system) by exact Hi. reflexivity. }
        split; [reflexivity |]. split.
        { unfold sleep_events. rewrite !omap_app. simpl. rewrite !app_nil_r. reflexivity. }
        right. right. split; [exact Hnot |]. exists d. split; [reflexivity |]. left. auto.
      * repeat (rewrite run_bind; simpl). rewrite run_sleep.
        eexists. exists None. split; [reflexivity |]. simpl.
        split.
        { rewrite !list_alter_alter_eq.
          rewrite (list_alter_as_insert _ i system) by exact Hi. reflexivity. }
        split; [reflexivity |]. split.
        { unfold sleep_events. rewrite !omap_app. simpl. rewrite !app_nil_r. reflexivity. }
        right. right. split; [exact Hnot |]. exists d. split; [reflexivity |]. right. auto.
    + rewrite ?run_sleep.
      eexists. exists (client system). split; [reflexivity |]. simpl.
      split; [rewrite with_client_same, list_insert_id by exact Hi; reflexivity |].
      split; [reflexivity |]. split.
      { unfold sleep_events. rewrite !omap_app. simpl. rewrite !app_nil_r. reflexivity. }
      right. left. auto.
  - assert (Hyes : connected system).
    { unfold connected. unfold needs_connection in Hneeds.
      destruct (client system) as [c |]; [| discriminate].
      destruct (is_connected c) eqn:Hc; [eauto | discriminate]. }
    rewrite run_bind. simpl. rewrite run_sleep.
    eexists. exists (client system). split; [reflexivity |]. simpl.
    split; [rewrite with_client_same, list_insert_id by exact Hi; reflexivity |].
    split; [reflexivity |]. split.
    { unfold sleep_events. rewrite omap_app. reflexivity. }
    left. auto.
Qed.

Lemma always_links_replies (bleak : Transport) : always_links bleak → always_replies bleak.
Proof.
  intros [Hfind Hlink]. split.
  - intros t name. destruct (Hfind t name) as [d ->]. discriminate.
  - intros t d. rewrite Hlink. discriminate.
Qed.

(** One pass of the [for] loop over valid indices, transport answering. *)
Lemma turn_sleeps (bleak : Transport) (l : list nat) (w : World) :
  always_replies bleak →
  Forall (fun i => (i < length (_systems (self w)))%nat) l →
  ∃ w', for_each (_connect_body bleak) l w = (Returned tt, w')
        ∧ length (_systems (self w')) = length (_systems (self w))
        ∧ sleep_events (log w') = sleep_events (log w) ++ replicate (length l) 10%Q.
Proof.
  intros Hreplies. revert w. induction l as [| i rest IH]; intros w Hall; simpl.
  - exists w. rewrite app_nil_r. auto.
  - inversion Hall as [| ? ? Hi Hrest]; subst.
    destruct (lookup_lt_is_Some_2 _ _ Hi) as [system Hsys].
    destruct (visit_outcome bleak i system w Hreplies Hsys)
      as (w1 & c & Hrun & Hsys1 & _ & Hlog1 & _).
    assert (Hlen1 : length (_systems (self w1)) = length (_systems (self w)))
      by (rewrite Hsys1; apply length_insert).
    rewrite run_bind, Hrun.
    destruct (IH w1) as (w2 & Hrun2 & Hlen2 & Hlog2).
    { rewrite Hlen1. exact Hrest. }
    exists w2. split; [exact Hrun2 |]. split; [congruence |].
    rewrite Hlog2, Hlog1, <- app_assoc. reflexivity.
Qed.

Lemma loop_sleeps (bleak : Transport) (fuel : nat) (w : World) :
  always_replies bleak →
  sleep_events (log (exec (_connect bleak fuel) w))
  = sleep_events (log w) ++ replicate (fuel * length (_systems (self w))) 10%Q.
Proof.
  intros Hreplies. revert w. induction fuel as [| fuel IH]; intros w.
  - simpl. rewrite app_nil_r. reflexivity.
  - unfold exec in *. simpl. rewrite run_bind. simpl. rewrite run_bind.
    destruct (turn_sleeps bleak (seq 0 (length (_systems (self w)))) w Hreplies)
      as (w1 & Hrun & Hlen & Hlog).
    { apply Forall_forall. intros i Hi. apply elem_of_seq in Hi. lia. }
    rewrite Hrun, IH, Hlog, Hlen, length_seq, <- app_assoc, <- replicate_add.
    reflexivity.
Qed.

(** X12.  With a transport that answers every call, every visit of the
    loop ends with [sleep(10)], whether the system was connected, found or
    not: after [k] turns over a registry of [n] systems the run has awaited
    exactly [k * n] sleeps of 10 seconds and no other sleep, so a turn takes
    at least ten seconds per registered system. *)
Theorem loop_sleeps_once_per_system (bleak : Transport) (k : nat) (w : World) :
  always_replies bleak →
  sleep_events (log (exec (connect bleak k) w))
  = sleep_events (log w) ++ replicate (k * length (_systems (self w))) 10%Q.
Proof.
  intros Hreplies. unfold exec. rewrite run_connect.
  destruct (_connect_diverges bleak k (exec (emit (EvCall C_connect)) w) Hreplies)
    as (w' & Hout).
  pose proof (loop_sleeps bleak k (exec (emit (EvCall C_connect)) w) Hreplies) as Hloop.
  unfold exec in *. rewrite Hout in *. simpl in *.
  rewrite Hloop. unfold sleep_events. rewrite omap_app. simpl.
  rewrite app_nil_r. reflexivity.
Qed.

Lemma loop_sleeps_once_per_system_witness :
  sleep_events (log (exec (connect only_pod_a 3) two_pods))
  = sleep_events (log two_pods) ++ replicate (3 * length (_systems (self two_pods))) 10%Q.
Proof.
  apply (loop_sleeps_once_per_system only_pod_a 3 two_pods).
  split; intros; discriminate.
Defined.

(** One pass of the [for] loop with a transport that finds and links:
    what was connected stays so, what is visited becomes so. *)
Lemma turn_links (bleak : Transport) (l : list nat) (w : World) :
  always_links bleak →
  Forall (fun i => (i < length (_systems (self w)))%nat) l →
  ∃ w', for_each (_connect_body bleak) l w = (Returned tt, w')
        ∧ length (_systems (self w')) = length (_systems (self w))
        ∧ (∀ j, connected_at w j → connected_at w' j)
        ∧ Forall (connected_at w') l.
Proof.
  intros Hlinks. pose proof (always_links_replies bleak Hlinks) as Hreplies.
  destruct Hlinks as [Hfind Hlink].
  revert w. induction l as [| i rest IH]; intros w Hall; simpl.
  - exists w. repeat split; auto.
  - inversion Hall as [| ? ? Hi Hrest]; subst.
    destruct (lookup_lt_is_Some_2 _ _ Hi) as [system Hsys].
    destruct (visit_outcome bleak i system w Hreplies Hsys)
      as (w1 & c & Hrun & Hsys1 & _ & _ & Hcases).
    assert (Hlen1 : length (_systems (self w1)) = length (_systems (self w)))
      by (rewrite Hsys1; apply length_insert).
    assert (Hhere : connected (with_client system c)).
    { destruct Hcases as [[Hconn ->] | [(_ & Hnone & _) | (_ & d & Hd & Hup)]].
      - rewrite with_client_same. exact Hconn.
      - destruct (Hfind (now w) (system_name system)) as [d Hd]. congruence.
      - destruct Hup as [[_ ->] | [Hdown _]].
        + eexists. split; reflexivity.
        + rewrite Hlink in Hdown. discriminate. }
    assert (Hkeep : ∀ j, connected_at w j → connected_at w1 j).
    { intros j (s & Hs & Hconn). unfold connected_at. rewrite Hsys1.
      destruct (decide (i = j)) as [<- | Hne].
      - exists (with_client system c).
        split; [apply list_lookup_insert_eq; exact Hi | exact Hhere].
      - exists s. split; [rewrite list_lookup_insert_ne by exact Hne; exact Hs | exact Hconn]. }
    assert (Hi1 : connected_at w1 i).
    { exists (with_client system c). rewrite Hsys1.
      split; [apply list_lookup_insert_eq; exact Hi | exact Hhere]. }
    rewrite run_bind, Hrun.
    destruct (IH w1) as (w2 & Hrun2 & Hlen2 & Hkeep2 & Hrest2).
    { rewrite Hlen1. exact Hrest. }
    exists w2. split; [exact Hrun2 |]. split; [congruence |]. split.
    + intros j Hj. apply Hkeep2, Hkeep, Hj.
    + constructor; [apply Hkeep2, Hi1 | exact Hrest2].
Qed.

(** Once every system is connected the loop only sleeps: a turn records
    one [sleep(10)] per system and nothing else, and changes nothing. *)
Lemma loop_idle (bleak : Transport) (fuel : nat) (w : World) :
  Forall connected (_systems (self w)) →
  _connect bleak fuel w
  = (OutOfFuel,
     mkWorld (heap w) (self w)
       (log w ++ replicate (fuel * length (_systems (self w))) (EvSleep 10))
       (fuel * length (_systems (self w)) + now w)).
Proof.
  revert w. induction fuel as [| fuel IH]; intros w Hall.
  - simpl. rewrite app_nil_r. destruct w; reflexivity.
  - simpl. rewrite run_bind. simpl. rewrite run_bind.
    rewrite for_each_skips.
    + rewrite IH by exact Hall. simpl.
      rewrite length_seq, <- app_assoc, <- replicate_add.
      replace (fuel * length (_systems (self w)) + (length (_systems (self w)) + now w))%nat
        with (length (_systems (self w)) + fuel * length (_systems (self w)) + now w)%nat
        by lia.
      reflexivity.
    + apply Forall_forall. intros j Hj. apply elem_of_seq in Hj.
      destruct (lookup_lt_is_Some_2 (_systems (self w)) j) as [s Hs]; [lia |].
      exists s. split; [exact Hs |]. eapply Forall_lookup_1; eassumption.
Qed.

(** The first turn with a transport that finds and links, then the rest
    of the run. *)
Lemma loop_links (bleak : Transport) (fuel : nat) (w : World) :
  always_links bleak →
  ∃ w1, _connect bleak 1 w = (OutOfFuel, w1)
        ∧ Forall connected (_systems (self w1))
        ∧ _connect bleak (S fuel) w
          = (OutOfFuel,
             mkWorld (heap w1) (self w1)
               (log w1 ++ replicate (fuel * length (_systems (self w1))) (EvSleep 10))
               (fuel * length (_systems (self w1)) + now w1)).
Proof.
  intros Hlinks.
  destruct (turn_links bleak (seq 0 (length (_systems (self w)))) w Hlinks)
    as (w1 & Hrun & Hlen & _ & Hvisited).
  { apply Forall_forall. intros i Hi. apply elem_of_seq in Hi. lia. }
  assert (Hall1 : Forall connected (_systems (self w1))).
  { apply Forall_lookup_2. intros i x Hx.
    rewrite Forall_forall in Hvisited.
    destruct (Hvisited i) as (s & Hs & Hconn).
    - apply elem_of_seq. apply lookup_lt_Some in Hx. lia.
    - congruence. }
  exists w1. split; [| split; [exact Hall1 |]].
  - simpl. rewrite run_bind. simpl. rewrite run_bind, Hrun. reflexivity.
  - change (_connect bleak (S fuel) w)
      with ((s ← get_self;
             for_each (_connect_body bleak) (seq 0 (length (_systems s))) ;;
             _connect bleak fuel) w).
    rewrite run_bind. simpl. rewrite run_bind, Hrun.
    apply loop_idle, Hall1.
Qed.

(** X13.  With a transport that finds every device and links every
    client, in the model where a link once up stays up, the first turn of
    the loop connects every registered system and every later turn only
    sleeps: the state the run is in after [1 + k] turns is the state after
    the first turn with nothing added but [k] times one [sleep(10)] per
    system (no scan, no connect attempt, no change of the registry); in it
    every system is connected, the query [isEverythingConnected] reads true,
    and names and channel counts are as registered. *)
Theorem loop_connects_everything (bleak : Transport) (k : nat) (w : World) :
  always_links bleak →
  Forall connected (_systems (self (exec (connect bleak (S k)) w)))
  ∧ fst (isEverythingConnected (exec (connect bleak (S k)) w)) = Returned true
  ∧ identities (exec (connect bleak (S k)) w) = identities w
  ∧ exec (connect bleak (S k)) w
    = mkWorld (heap (exec (connect bleak 1) w)) (self (exec (connect bleak 1) w))
        (log (exec (connect bleak 1) w)
         ++ replicate (k * length (_systems (self w))) (EvSleep 10))
        (k * length (_systems (self w)) + now (exec (connect bleak 1) w)).
Proof.
  intros Hlinks.
  destruct (loop_links bleak k (exec (emit (EvCall C_connect)) w) Hlinks)
    as (w1 & Hone & Hall1 & Hrun).
  assert (Hfirst : exec (connect bleak 1) w = w1).
  { unfold exec at 1. rewrite run_connect, Hone. reflexivity. }
  assert (Hlen : length (_systems (self w1)) = length (_systems (self w))).
  { pose proof (connect_same_registry bleak 1 w) as [Hid _].
    unfold exec in Hfirst. rewrite Hfirst in Hid.
    apply (f_equal length) in Hid. unfold identities in Hid.
    rewrite !length_map in Hid. exact Hid. }
  assert (Hlast : exec (connect bleak (S k)) w
                  = mkWorld (heap w1) (self w1)
                      (log w1 ++ replicate (k * length (_systems (self w))) (EvSleep 10))
                      (k * length (_systems (self w)) + now w1)).
  { unfold exec at 1. rewrite run_connect, Hrun, Hlen. reflexivity. }
  split; [rewrite Hlast; exact Hall1 |].
  split.
  - rewrite isEverythingConnected_run, Hlast. simpl. f_equal.
    apply py_all_connected, Hall1.
  - split; [apply connect_same_registry |].
    rewrite Hfirst. exact Hlast.
Qed.

Lemma loop_connects_everything_witness :
  fst (isEverythingConnected
         (exec (connect (mkTransport (fun _ _ => Reply (Some "AA:BB"%string))
                          (fun _ _ => Reply true) (fun _ => "services"%string)) 2)
            two_pods))
  = Returned true.
Proof.
  apply (loop_connects_everything
           (mkTransport (fun _ _ => Reply (Some "AA:BB"%string))
              (fun _ _ => Reply true) (fun _ => "services"%string)) 1 two_pods).
  split; intros; eauto.
Defined.

(** ** The loop and the readings *)

(** X14.  Whatever the transport does and however long it runs,
    [connect()] never writes a reading: the table that
    [getPressureReadings()] refers to reads after the run exactly what it
    read before it, rows written by a caller included.  The live code
    subscribes to no notification. *)
Theorem connect_never_writes_readings (bleak : Transport) (fuel : nat) (w : World) :
  heap (exec (connect bleak fuel) w) = heap w
  ∧ (∃ r, getPressureReadings (exec (connect bleak fuel) w)
          = (Returned r, exec (connect bleak fuel) w)
          ∧ r = _pressures (self w)
          ∧ read_table (heap (exec (connect bleak fuel) w)) r
            = read_table (heap w) (_pressures (self w)))
  ∧ read_table (heap (exec (connect only_pod_a 4) pod_a_written))
      (_pressures (self (exec (connect only_pod_a 4) pod_a_written)))
    = Some [[997; 0]].
Proof.
  destruct (keeps_connect bleak fuel w) as (Hh & Hp & _).
  unfold exec in *.
  split; [exact Hh |]. split.
  - eexists. split; [reflexivity |]. simpl. rewrite Hp, Hh. auto.
  - destruct (keeps_connect only_pod_a 4 pod_a_written) as (Hh' & Hp' & _).
    rewrite Hh', Hp'. vm_compute. reflexivity.
Qed.
